(** * The registry compiler (tools/registry_compile.py)

    A shallow embedding of the markdown-to-JSON card compiler: Python strings
    are lists of code points, the regular expressions of the script are terms
    of a small backtracking matcher that follows the priorities of Python's
    [re] module, and the card loop is a function into an outcome type with an
    explicit [ValueError] result. *)

From Stdlib Require Import ZArith List Bool String Ascii QArith Lia.
Import ListNotations.
Local Open Scope Z_scope.

(** ** Python strings *)

(** A [str] is a sequence of Unicode code points. *)
Definition pystr := list Z.

(** The code points of an ASCII literal of the script. *)
Definition py (s : string) : pystr :=
  List.map (fun a => Z.of_N (N_of_ascii a)) (list_ascii_of_string s).

Definition NL : Z := 10.

(** [str.isspace] on one code point, which is also the class [\s] of a
    [str] pattern: the ASCII controls 9-13 and 28-31, the space, and the
    Unicode separators. *)
Definition isspace (c : Z) : bool :=
  ((9 <=? c) && (c <=? 13)) || ((28 <=? c) && (c <=? 32))
  || (c =? 133) || (c =? 160) || (c =? 5760)
  || ((8192 <=? c) && (c <=? 8202))
  || (c =? 8232) || (c =? 8233) || (c =? 8239) || (c =? 8287) || (c =? 12288).

Fixpoint lstrip (s : pystr) : pystr :=
  match s with
  | c :: t => if isspace c then lstrip t else s
  | [] => []
  end.

Definition rstrip (s : pystr) : pystr := rev (lstrip (rev s)).

(** [s.strip()] *)
Definition strip (s : pystr) : pystr := rstrip (lstrip s).

(** [s.startswith(p)] *)
Fixpoint startswith (s p : pystr) {struct p} : bool :=
  match p, s with
  | [], _ => true
  | x :: p', y :: s' => (y =? x) && startswith s' p'
  | _ :: _, [] => false
  end.

(** [x in s] for strings: [x] occurs in [s] as a contiguous run. *)
Fixpoint str_in (x s : pystr) : bool :=
  startswith s x ||
  match s with
  | [] => false
  | _ :: t => str_in x t
  end.

(** [c in s] for a one-character string [c]. *)
Definition chr_in (c : Z) (s : pystr) : bool := existsb (Z.eqb c) s.

(** Truth value of a string: empty strings are falsy. *)
Definition truthy (s : pystr) : bool :=
  match s with [] => false | _ :: _ => true end.

(** [s.split(sep)] for a separator of one code point (every separator of the
    script is one: the parenthesis, the comma, the arrow U+2194). *)
Fixpoint str_split (sep : Z) (s : pystr) : list pystr :=
  match s with
  | [] => [[]]
  | c :: t =>
      if c =? sep then [] :: str_split sep t
      else match str_split sep t with
           | h :: r => (c :: h) :: r
           | [] => [[c]]
           end
  end.

(** [s.replace(a, b)] for one-character [a] and [b]. *)
Definition str_replace (a b : Z) (s : pystr) : pystr :=
  List.map (fun c => if c =? a then b else c) s.

(** [s.find(c)]: index of the first [c], or -1. *)
Fixpoint str_find (c : Z) (s : pystr) : Z :=
  match s with
  | [] => -1
  | x :: t => if x =? c then 0 else
                let i := str_find c t in if i <? 0 then -1 else i + 1
  end.

(** [s.rfind(c)]: index of the last [c], or -1. *)
Fixpoint str_rfind (c : Z) (s : pystr) : Z :=
  match s with
  | [] => -1
  | x :: t => let i := str_rfind c t in
              if 0 <=? i then i + 1 else if x =? c then 0 else -1
  end.

(** [s[a:b]], with Python's treatment of negative and oversized bounds. *)
Definition slice (s : pystr) (a b : Z) : pystr :=
  let n := Z.of_nat (List.length s) in
  let clip i := if i <? 0 then Z.max 0 (i + n) else Z.min i n in
  let a' := clip a in
  let b' := clip b in
  firstn (Z.to_nat (b' - a')) (skipn (Z.to_nat a') s).

Definition ascii_lower (c : Z) : Z :=
  if (65 <=? c) && (c <=? 90) then c + 32 else c.

Definition is_ascii (s : pystr) : bool := forallb (fun c => c <? 128) s.

(** The part of the interpreter's Unicode database the script reaches beyond
    ASCII.  It is data of the Python runtime, not of the repository, so the
    development is parametric in it. *)
Record unicode_db : Type := {
  (** [str.lower] of a string that is not pure ASCII *)
  uni_lower : pystr -> pystr;
  (** [str.isalnum] for a code point above 127 *)
  uni_alnum : Z -> bool;
  (** the digit value of a code point above 127 of category Nd *)
  uni_decimal : Z -> option Z
}.

(** The empty tables: no cased letter, word character or digit above 127.
    Used to evaluate the definitions on ASCII inputs. *)
Definition ascii_only : unicode_db :=
  {| uni_lower := fun s => s;
     uni_alnum := fun _ => false;
     uni_decimal := fun _ => None |}.

(** ** Regular expressions

    The patterns of the script, as terms.  Matching is by backtracking with
    Python's priorities: a greedy repetition tries one more iteration before
    it tries to stop, a lazy one stops before it tries one more, and the
    first complete match found is the one returned. *)

Inductive regex : Type :=
| Chr (c : Z)                        (* a literal code point *)
| Cls (p : Z -> bool)                (* a class: [\s], [.], [[^\n]], [[\d\.]] *)
| Cat (r1 r2 : regex)                (* r1 r2 *)
| Rep (greedy : bool) (r : regex)    (* r* and r*? *)
| Grp (r : regex)                    (* ( r ), the group numbered 1 *)
| Ahead (r : regex)                  (* (?= r ) *)
| Bol                                (* ^ under re.M *)
| Eol.                               (* $ under re.M *)

(** r+ and r+? *)
Definition Plus (greedy : bool) (r : regex) : regex := Cat r (Rep greedy r).

(** A literal string, what [re.escape] produces; the regex that follows it is
    the second argument. *)
Fixpoint Lit (s : pystr) (r : regex) : regex :=
  match s with
  | [] => r
  | c :: t => Cat (Chr c) (Lit t r)
  end.

(** [.] without re.S, and [[^\n]]. *)
Definition not_nl (c : Z) : bool := negb (c =? NL).

(** A position in the subject: the code point just before it (none at index
    0), the text from it on, and the text of group 1 if it has been closed. *)
Record cursor : Type := {
  before : option Z;
  rest : pystr;
  group1 : option pystr
}.

Definition start_at (prev : option Z) (s : pystr) : cursor :=
  {| before := prev; rest := s; group1 := None |}.

Definition advance (c : cursor) (x : Z) (t : pystr) : cursor :=
  {| before := Some x; rest := t; group1 := group1 c |}.

(** Close group 1 at [c'], opened at [c]. *)
Definition capture (c c' : cursor) : cursor :=
  {| before := before c';
     rest := rest c';
     group1 := Some (firstn (List.length (rest c) - List.length (rest c')) (rest c)) |}.

Definition at_bol (c : cursor) : bool :=
  match before c with
  | None => true
  | Some x => x =? NL
  end.

Definition at_eol (c : cursor) : bool :=
  match rest c with
  | [] => true
  | x :: _ => x =? NL
  end.

Definition orelse {A : Type} (a b : option A) : option A :=
  match a with
  | Some x => Some x
  | None => b
  end.

Section Matcher.
Context {A : Type}.

(** The repetition of [body] from [c], then [k].  An iteration that
    consumes nothing is not repeated, so at most [length (rest c)]
    iterations can follow one another: [n] counts them down. *)
Fixpoint rep_loop (body : cursor -> (cursor -> option A) -> option A)
         (greedy : bool) (k : cursor -> option A) (n : nat) (c : cursor)
  : option A :=
  let again :=
    match n with
    | O => None
    | S n' =>
        body c (fun c' =>
                  if (List.length (rest c') <? List.length (rest c))%nat
                  then rep_loop body greedy k n' c'
                  else None)
    end in
  if greedy then orelse again (k c) else orelse (k c) again.
End Matcher.

(** [exec r c k]: match [r] at [c] and hand every end position to [k], in
    priority order, until [k] accepts one. *)
Fixpoint exec (r : regex) (A : Type) (c : cursor) (k : cursor -> option A)
  : option A :=
  match r with
  | Chr x =>
      match rest c with
      | y :: t => if y =? x then k (advance c y t) else None
      | [] => None
      end
  | Cls p =>
      match rest c with
      | y :: t => if p y then k (advance c y t) else None
      | [] => None
      end
  | Cat r1 r2 => exec r1 A c (fun c' => exec r2 A c' k)
  | Rep g r1 => rep_loop (exec r1 A) g k (List.length (rest c)) c
  | Grp r1 => exec r1 A c (fun c' => k (capture c c'))
  | Ahead r1 =>
      match exec r1 unit c (fun _ => Some tt) with
      | Some _ => k c
      | None => None
      end
  | Bol => if at_bol c then k c else None
  | Eol => if at_eol c then k c else None
  end.

(** [re.match] at one position: the cursor where the match ends. *)
Definition match_at (r : regex) (c : cursor) : option cursor :=
  exec r cursor c Some.

(** [re.search(r, s)]: the leftmost position with a match.  [prev] is the
    code point before [s] in the subject. *)
Fixpoint search_from (r : regex) (prev : option Z) (s : pystr) : option cursor :=
  match match_at r (start_at prev s) with
  | Some m => Some m
  | None =>
      match s with
      | [] => None
      | x :: t => search_from r (Some x) t
      end
  end.

Definition re_search (r : regex) (s : pystr) : option cursor :=
  search_from r None s.

(** [m.group(1)] *)
Definition group (m : cursor) : pystr :=
  match group1 m with
  | Some g => g
  | None => []
  end.

(** [re.split(r, s)] for a pattern without groups whose matches are never
    empty (the splitter's consumes a line break).  The scan keeps the
    segment read so far, reversed, in [seg]; after a match of [n+1] code
    points it skips the [n] that remain. *)
Fixpoint split_scan (r : regex) (prev : option Z) (s : pystr)
         (skip : nat) (seg : pystr) : list pystr :=
  match s with
  | [] => [rev seg]
  | x :: t =>
      match skip with
      | S n => split_scan r (Some x) t n seg
      | O =>
          match match_at r (start_at prev s) with
          | Some m =>
              match (List.length s - List.length (rest m))%nat with
              | S n => rev seg :: split_scan r (Some x) t n []
              | O => split_scan r (Some x) t O (x :: seg)
              end
          | None => split_scan r (Some x) t O (x :: seg)
          end
      end
  end.

Definition re_split (r : regex) (s : pystr) : list pystr :=
  split_scan r None s O [].

(** [re.sub(r, repl, s)] for a pattern whose matches are never empty and a
    replacement without group references. *)
Fixpoint sub_scan (r : regex) (repl : pystr) (prev : option Z) (s : pystr)
         (skip : nat) : pystr :=
  match s with
  | [] => []
  | x :: t =>
      match skip with
      | S n => sub_scan r repl (Some x) t n
      | O =>
          match match_at r (start_at prev s) with
          | Some m =>
              match (List.length s - List.length (rest m))%nat with
              | S n => repl ++ sub_scan r repl (Some x) t n
              | O => x :: sub_scan r repl (Some x) t O
              end
          | None => x :: sub_scan r repl (Some x) t O
          end
      end
  end.

Definition re_sub (r : regex) (repl s : pystr) : pystr :=
  sub_scan r repl None s O.

Section Registry.
Context (ucd : unicode_db).
(** Python floats: [nearest q] is the binary64 value [float] returns for
    the decimal literal or integer of exact value [q]. *)
Context {float : Type} (nearest : Q -> float).

(** [s.lower()]: CPython lowers a pure-ASCII string byte by byte and sends
    every other string through the Unicode case mapping. *)
Definition lower (s : pystr) : pystr :=
  if is_ascii s then List.map ascii_lower s else uni_lower ucd s.

(** The digit value behind [\d] and [float]: both read the same table. *)
Definition decimal_value (c : Z) : option Z :=
  if (48 <=? c) && (c <=? 57) then Some (c - 48)
  else if c <? 128 then None
  else uni_decimal ucd c.

(** [\d] *)
Definition isdecimal (c : Z) : bool :=
  match decimal_value c with Some _ => true | None => false end.

(** [[\d\.]] *)
Definition digit_or_dot (c : Z) : bool := isdecimal c || (c =? 46).

(** [\w]: alphanumeric or underscore. *)
Definition isword (c : Z) : bool :=
  if c <? 128
  then ((48 <=? c) && (c <=? 57)) || ((65 <=? c) && (c <=? 90))
       || ((97 <=? c) && (c <=? 122)) || (c =? 95)
  else uni_alnum ucd c.

(** [float(s)] for a string of decimal digits and dots, the only strings
    the Solfeggio pattern captures.  [scan_decimal] reads the literal left
    to right: [m] is the integer spelled by the digits so far, [den] the
    power of ten owed to the digits after the dot.  A second dot, a
    literal without a digit or any other code point is a [ValueError],
    here [None]. *)
Fixpoint scan_decimal (s : pystr) (dot digit : bool) (m : Z) (den : positive)
  : option Q :=
  match s with
  | [] => if digit then Some (Qred (m # den)) else None
  | c :: t =>
      if c =? 46 then
        if dot then None else scan_decimal t true digit m den
      else
        match decimal_value c with
        | Some d =>
            scan_decimal t dot true (10 * m + d)
                         (if dot then (10 * den)%positive else den)
        | None => None
        end
  end.

Definition float_of_str (s : pystr) : option float :=
  option_map nearest (scan_decimal s false false 0 1%positive).

(** [float(n)] for an integer. *)
Definition float_of_int (n : Z) : float := nearest (inject_Z n).

(** ** The patterns of the script *)

(** [\n(?=##\s)] *)
Definition splitter_re : regex :=
  Cat (Chr NL) (Ahead (Cat (Chr 35) (Cat (Chr 35) (Cls isspace)))).

(** [-\s*%s:\s*([^\n]+)] with the escaped key in place of [%s] *)
Definition field_re (k : pystr) : regex :=
  Cat (Chr 45)
      (Cat (Rep true (Cls isspace))
           (Lit k
                (Cat (Chr 58)
                     (Cat (Rep true (Cls isspace))
                          (Grp (Plus true (Cls not_nl))))))).

(** [^##\s+(.+?)\s*$] under re.M *)
Definition heading_re : regex :=
  Cat Bol
      (Cat (Chr 35)
           (Cat (Chr 35)
                (Cat (Plus true (Cls isspace))
                     (Cat (Grp (Plus false (Cls not_nl)))
                          (Cat (Rep true (Cls isspace)) Eol))))).

(** [[^\w]+] *)
Definition nonword_re : regex := Plus true (Cls (fun c => negb (isword c))).

(** [Solfeggio\s*=\s*([\d\.]+)] *)
Definition solfeggio_re : regex :=
  Lit (py "Solfeggio")
      (Cat (Rep true (Cls isspace))
           (Cat (Chr 61)
                (Cat (Rep true (Cls isspace))
                     (Grp (Plus true (Cls digit_or_dot)))))).

(** ** The functions of the script *)

(** [blocks]: the segments of the text that start with a level-2 heading. *)
Definition blocks (md : pystr) : list pystr :=
  List.filter (fun b => startswith b (py "## ")) (re_split splitter_re md).

Definition field (b k : pystr) : pystr :=
  match re_search (field_re k) b with
  | Some m => strip (group m)
  | None => []
  end.

Definition suit (n : pystr) : pystr :=
  let s := lower n in
  if str_in (py "wands") s then py "wands"
  else if str_in (py "cups") s then py "cups"
  else if str_in (py "pentacles") s || str_in (py "coin") s then py "pentacles"
  else if str_in (py "swords") s || str_in (py "blade") s then py "swords"
  else py "majors".

(** [ray or ""] *)
Definition or_empty (ray : option pystr) : pystr :=
  match ray with
  | Some s => if truthy s then s else []
  | None => []
  end.

Definition map_freq (ray : option pystr) : Z :=
  let r := lower (or_empty ray) in
  if str_in (py "violet") r then 963
  else if str_in (py "indigo") r || str_in (py "silver") r then 852
  else if existsb (fun x => str_in x r)
            [py "gold"; py "emerald"; py "green"; py "aquamarine"; py "turquoise"]
       then 528
  else if str_in (py "crimson") r then 417
  else if str_in (py "scarlet") r || str_in (py "red") r then 285
  else 432.

Definition parse_list (value : option pystr) : list pystr :=
  match value with
  | None => []
  | Some v =>
      if negb (truthy v) then []
      else
        let cleaned := str_replace 59 44 v in
        let parts := List.map strip (str_split 44 cleaned) in
        List.filter truthy parts
  end.

(** ** The card loop *)

(** One entry of [cards], with the keys of the dictionary in their order. *)
Record card : Type := {
  c_id : pystr;
  c_name : pystr;
  c_suit : pystr;
  c_letter : pystr;
  c_astrology : pystr;
  c_ray : pystr;
  c_angel : pystr;
  c_demon : pystr;
  c_deities : pystr;
  c_crystal : pystr;
  c_chemistry : pystr;
  c_artifact : pystr;
  c_pigment : pystr;
  c_tara : pystr;
  c_thought : pystr;
  c_hga_fragment : pystr;
  c_pattern_glyph : pystr;
  c_psyche : pystr;
  c_technical : pystr;
  c_appPulls : pystr;
  c_freq : float;
  c_witchEyeOrders : list pystr;
  c_nonLivingLineages : list pystr
}.

(** The separator of the [Angel/Demon] field, U+2194. *)
Definition ARROW : Z := 8596.

(** The pair [(angel, demon)] computed from the field value [ad]. *)
Definition angel_demon (ad : pystr) : pystr * pystr :=
  if chr_in ARROW ad then
    let parts := List.map strip (str_split ARROW ad) in
    (match parts with p0 :: _ => p0 | [] => [] end,
     if (1 <? List.length parts)%nat then nth 1 parts [] else [])
  else ([], []).

(** [crystal] from the field value [crystal_line]. *)
Definition crystal_of (crystal_line : pystr) : pystr :=
  if truthy crystal_line
  then strip (nth 0 (str_split 40 crystal_line) [])
  else [].

(** [chem] from the field value [crystal_line]. *)
Definition chem_of (crystal_line : pystr) : pystr :=
  if truthy crystal_line && chr_in 40 crystal_line && chr_in 41 crystal_line
  then
    let start := str_find 40 crystal_line + 1 in
    let end_ := str_rfind 41 crystal_line in
    if start <? end_ then strip (slice crystal_line start end_) else []
  else [].

(** [freq]; [None] when [float] raises [ValueError]. *)
Definition freq_of (tech ray : pystr) : option float :=
  match re_search solfeggio_re tech with
  | Some freq_match => float_of_str (group freq_match)
  | None => Some (float_of_int (map_freq (Some ray)))
  end.

(** What one pass of the loop body does with a block. *)
Inductive outcome : Type :=
| Skipped                  (* [continue] *)
| Appended (c : card)      (* [cards.append] *)
| ValueError.              (* [float] raised *)

Definition assemble (b : pystr) : outcome :=
  match re_search heading_re b with
  | None => Skipped
  | Some name_match =>
      let name := strip (group name_match) in
      let app_pulls := field b (py "App Pulls") in
      if negb (truthy app_pulls) then Skipped
      else
        let _id := lower (re_sub nonword_re (py "_") name) in
        let ray := field b (py "Ray") in
        let ad := field b (py "Angel/Demon") in
        let (angel, demon) := angel_demon ad in
        let crystal_line := field b (py "Crystal") in
        let crystal := crystal_of crystal_line in
        let chem := chem_of crystal_line in
        let tech := field b (py "Technical") in
        match freq_of tech ray with
        | None => ValueError
        | Some freq =>
            Appended
              {| c_id := _id;
                 c_name := name;
                 c_suit := suit name;
                 c_letter := field b (py "Letter");
                 c_astrology := field b (py "Astrology");
                 c_ray := ray;
                 c_angel := angel;
                 c_demon := demon;
                 c_deities := field b (py "Deities");
                 c_crystal := crystal;
                 c_chemistry := chem;
                 c_artifact := field b (py "Artifact");
                 c_pigment := field b (py "Pigment");
                 c_tara := field b (py "Secret Tara");
                 c_thought := field b (py "Thought-form");
                 c_hga_fragment := field b (py "HGA Fragment");
                 c_pattern_glyph := field b (py "Pattern Glyph");
                 c_psyche := field b (py "Psyche");
                 c_technical := tech;
                 c_appPulls := app_pulls;
                 c_freq := freq;
                 c_witchEyeOrders := parse_list (Some (field b (py "Witch Eye Order")));
                 c_nonLivingLineages :=
                   parse_list (Some (field b (py "Non-Living Lineage"))) |}
        end
  end.

(** The loop over [blocks], from the list [cards] built so far.  [None]:
    the run ended in an uncaught [ValueError] and nothing is written. *)
Fixpoint card_loop (bs : list pystr) (cards : list card) : option (list card) :=
  match bs with
  | [] => Some cards
  | b :: bs' =>
      match assemble b with
      | Skipped => card_loop bs' cards
      | Appended c => card_loop bs' (cards ++ [c])
      | ValueError => None
      end
  end.

(** The list handed to [json.dump] for the text [md] of the input file. *)
Definition compile (md : pystr) : option (list card) :=
  card_loop (blocks md) [].

(** ** Vocabulary of the statements *)

(** [x] occurs in [s]. *)
Definition substring (x s : pystr) : Prop := exists a b, s = a ++ x ++ b.

(** Every code point of [w] is white space. *)
Definition blank (w : pystr) : Prop := Forall (fun c => isspace c = true) w.

(** Two ASCII strings that differ in the case of their letters only. *)
Definition same_but_case (s t : pystr) : Prop :=
  is_ascii s = true /\ is_ascii t = true /\
  List.map ascii_lower s = List.map ascii_lower t.

(** The text of [s] before the first [sep], all of [s] if there is none. *)
Fixpoint upto (sep : Z) (s : pystr) : pystr :=
  match s with
  | [] => []
  | c :: t => if c =? sep then [] else c :: upto sep t
  end.

(** The cursor reached from [c] by reading [w], with [t] left to read. *)
Definition moved (c : cursor) (w t : pystr) : cursor :=
  {| before := fold_left (fun _ x => Some x) w (before c);
     rest := t;
     group1 := group1 c |}.

(** [s] is empty or starts with a code point outside the class [p]. *)
Definition stops (p : Z -> bool) (s : pystr) : Prop :=
  match s with
  | [] => True
  | c :: _ => p c = false
  end.

(** No hyphen of [pre] is followed, in the text [pre ++ s], by optional
    white space, the key [k] and a colon: the pattern of [field] cannot
    match from inside [pre]. *)
Definition no_earlier_key (k pre s : pystr) : Prop :=
  forall u v w t, pre = u ++ 45 :: v -> blank w -> v ++ s <> w ++ k ++ 58 :: t.

(** The number of dots of [s]. *)
Definition dots (s : pystr) : nat := List.length (List.filter (Z.eqb 46) s).

(** A run of digits and dots that [float] accepts: some digit, and at most
    one dot. *)
Definition float_literal (s : pystr) : bool :=
  existsb isdecimal s && (dots s <=? 1)%nat.

(** The gate of the loop: the block has an [App Pulls] value. *)
Definition has_app_pulls (b : pystr) : bool := truthy (field b (py "App Pulls")).

(** The keywords of [map_freq]. *)
Definition ray_keywords : list pystr :=
  [py "violet"; py "indigo"; py "silver"; py "gold"; py "emerald"; py "green";
   py "aquamarine"; py "turquoise"; py "crimson"; py "scarlet"; py "red"].

(** Where the splitter's pattern matches: at a line break that is followed
    by [##] and a white-space code point. *)
Definition split_point (s : pystr) : bool :=
  match s with
  | a :: b :: c :: w :: _ => (a =? NL) && (b =? 35) && (c =? 35) && isspace w
  | _ => false
  end.

(** The text a list of segments was cut from: the segments with one line
    break between neighbours. *)
Fixpoint join_nl (l : list pystr) : pystr :=
  match l with
  | [] => []
  | g :: l' =>
      match l' with
      | [] => g
      | _ :: _ => g ++ NL :: join_nl l'
      end
  end.

(** [l] is cut at the split points of its text and nowhere else: no
    position inside a segment is a split point of the text that is left, and
    every line break between two segments is one. *)
Fixpoint well_cut (l : list pystr) : Prop :=
  match l with
  | [] => True
  | g :: l' =>
      (forall u v, g = u ++ v -> v <> [] ->
                   split_point (join_nl (v :: l')) = false)
      /\ (l' <> [] -> split_point (NL :: join_nl l') = true)
      /\ well_cut l'
  end.

(** The scan of [re.split] with the splitter's pattern, written out. *)
Fixpoint segments (s seg : pystr) : list pystr :=
  match s with
  | [] => [rev seg]
  | x :: t =>
      if split_point s then rev seg :: segments t []
      else segments t (x :: seg)
  end.

(** [s] has no white space at either end. *)
Definition trimmed (s : pystr) : Prop := strip s = s.

(** What [re.sub] with the pattern of the id does to a name, written out:
    word characters are kept and every run of other code points becomes one
    underscore.  [in_run] tells that the code point before was no word
    character. *)
Fixpoint collapse (in_run : bool) (s : pystr) : pystr :=
  match s with
  | [] => []
  | c :: t =>
      if isword c then c :: collapse false t
      else if in_run then collapse true t
      else 95 :: collapse true t
  end.

(** A lower-case ASCII letter, an ASCII digit or the underscore. *)
Definition id_char (c : Z) : bool :=
  ((48 <=? c) && (c <=? 57)) || ((97 <=? c) && (c <=? 122)) || (c =? 95).

(** The entries of a record that hold text of the block: all but the id,
    the suit and the frequency. *)
Definition text_entries (r : card) : list pystr :=
  [c_name r; c_letter r; c_astrology r; c_ray r; c_angel r; c_demon r;
   c_deities r; c_crystal r; c_chemistry r; c_artifact r; c_pigment r;
   c_tara r; c_thought r; c_hga_fragment r; c_pattern_glyph r; c_psyche r;
   c_technical r; c_appPulls r]
  ++ c_witchEyeOrders r ++ c_nonLivingLineages r.

(** [s] is a trimmed piece of one line of [b]. *)
Definition from_block (b s : pystr) : Prop :=
  trimmed s /\ ~ In NL s /\ substring s b.

(** [s.endswith(p)] *)
Definition endswith (s p : pystr) : bool := startswith (rev s) (rev p).

(** The number of places of [s] where [x] starts. *)
Fixpoint occurrences (x s : pystr) : nat :=
  (if startswith s x then 1 else 0) +
  match s with
  | [] => 0
  | _ :: t => occurrences x t
  end.

(** [sep.join(l)] for a separator of one code point. *)
Fixpoint join_sep (sep : Z) (l : list pystr) : pystr :=
  match l with
  | [] => []
  | g :: l' =>
      match l' with
      | [] => g
      | _ :: _ => g ++ sep :: join_sep sep l'
      end
  end.

(** What a token of [parse_list] looks like. *)
Definition token (tok : pystr) : Prop :=
  tok <> [] /\ trimmed tok /\ ~ In 44 tok /\ ~ In 59 tok.

(** ** Inputs of the examples

    The facts of this file hold for every Unicode table and every rounding.
    The inputs below are ASCII but for the arrow, so the examples evaluate
    them with the empty tables and with each float standing for its exact
    value. *)

Definition exact : Q -> Q := fun q => q.

(** A text from its lines, each closed by a line break. *)
Definition text (lines : list pystr) : pystr :=
  List.concat (List.map (fun l => l ++ [NL]) lines).

(** The first block of the two-block document of the test suite. *)
Definition fool_block : pystr :=
  text [py "## The Fool";
        py "- App Pulls: yes";
        py "- Ray: Silver";
        py "- Angel/Demon: Michael " ++ ARROW :: py " Belial";
        py "- Crystal: Quartz (SiO2)";
        py "- Technical: Info; Solfeggio = 528";
        py "- Letter: Aleph";
        py "- Astrology: Uranus";
        py "- Deities: Thoth";
        py "- Artifact: Wand";
        py "- Pigment: White";
        py "- Secret Tara: 1";
        py "- Thought-form: None";
        py "- HGA Fragment: xyz";
        py "- Pattern Glyph: abc";
        py "- Psyche: none";
        py "- Witch Eye Order: A, B; C";
        py "- Non-Living Lineage: X; Y"].

(** Its second block, which has no [App Pulls] line. *)
Definition skipped_block : pystr :=
  py "## Skipped Card" ++ NL :: py "- Ray: Crimson" ++ NL ::
  py "- Technical: Solfeggio = 417" ++ [NL].

Definition two_blocks : pystr := fool_block ++ NL :: skipped_block.

(** A block whose marker has a dot for a number. *)
Definition dot_block : pystr :=
  py "## X" ++ NL :: py "- App Pulls: yes" ++ NL ::
  py "- Technical: Solfeggio = .".

(** A block with two arrows in [Angel/Demon]. *)
Definition two_arrows : pystr := py "A " ++ ARROW :: py " B " ++ ARROW :: py " C".

Definition two_arrows_block : pystr :=
  py "## X" ++ NL :: py "- App Pulls: yes" ++ NL ::
  py "- Angel/Demon: " ++ two_arrows.

(** A block whose [Crystal] value opens a parenthesis and never closes it. *)
Definition open_paren_block : pystr :=
  py "## X" ++ NL :: py "- App Pulls: yes" ++ NL ::
  py "- Crystal: Quartz (SiO2".

(** A text whose third line starts with [##] and a tab. *)
Definition tab_heading : pystr :=
  py "## A" ++ NL :: py "x" ++ NL :: py "##" ++ 9 :: py "y".

(** A block whose [Ray] line has no value. *)
Definition empty_ray_block : pystr :=
  text [py "## X"; py "- Ray: "; py "- Crystal: Quartz"].

(** The blocks of the other tests of the suite. *)
Definition key_block : pystr :=
  NL :: text [py "## Example"; py "- Key:   Value with spaces   ";
              py "- Other: Something"].

Definition coins_block : pystr :=
  text [py "## Queen of Coins"; py "- App Pulls: yes"; py "- Ray: red";
        py "- Technical: Something without a Solfeggio value"].

Definition blade_block : pystr :=
  text [py "## Blade Dancer"; py "- App Pulls: yes";
        py "- Angel/Demon: Azazel only"].

(** * Facts *)

(** ** Strings *)

Lemma startswith_iff (s p : pystr) :
  startswith s p = true <-> exists t, s = p ++ t.
Proof.
  revert s; induction p as [|x p IH]; intros s; simpl.
  - split; [intros _; now exists s | reflexivity].
  - destruct s as [|y s]; simpl.
    + split; [discriminate | intros [t H]; discriminate].
    + rewrite andb_true_iff, Z.eqb_eq, IH. split.
      * intros [-> [t ->]]. now exists t.
      * intros [t H]. injection H as -> ->. split; [reflexivity | now exists t].
Qed.

Lemma str_in_iff (x s : pystr) : str_in x s = true <-> substring x s.
Proof.
  unfold substring. induction s as [|c s IH].
  - simpl. rewrite orb_false_r, startswith_iff. split.
    + intros [t H]. exists [], t. exact H.
    + intros [a [b H]]. destruct a; [now exists b | discriminate].
  - cbn [str_in]. rewrite orb_true_iff, startswith_iff, IH. split.
    + intros [[t H] | [a [b H]]].
      * exists [], t. exact H.
      * exists (c :: a), b. now rewrite H.
    + intros [a [b H]]. destruct a as [|c' a].
      * left. now exists b.
      * right. injection H as _ H. now exists a, b.
Qed.

Lemma str_in_reflect (x s : pystr) : reflect (substring x s) (str_in x s).
Proof. apply iff_reflect. symmetry. apply str_in_iff. Qed.

Lemma chr_in_iff (c : Z) (s : pystr) : chr_in c s = true <-> In c s.
Proof.
  unfold chr_in. rewrite existsb_exists. split.
  - intros [x [H E]]. apply Z.eqb_eq in E. now subst.
  - intros H. exists c. split; [exact H | apply Z.eqb_refl].
Qed.

Lemma chr_in_false (c : Z) (s : pystr) : chr_in c s = false <-> ~ In c s.
Proof.
  rewrite <- chr_in_iff. destruct (chr_in c s); split; intros; congruence.
Qed.

Lemma or_empty_some (s : pystr) : or_empty (Some s) = s.
Proof. now destruct s. Qed.

Lemma lower_same_but_case (s t : pystr) :
  same_but_case s t -> lower s = lower t.
Proof. intros (Hs & Ht & E). unfold lower. now rewrite Hs, Ht. Qed.

(** ** Frequency mapper *)

(** C3: [map_freq] is total with values in the six frequencies, and the value
    is fixed by the first rule, in the order violet, indigo/silver,
    gold/emerald/green/aquamarine/turquoise, crimson, scarlet/red, whose
    keyword occurs in the lowered descriptor; a later rule counts only when
    every earlier one has no keyword in it, and 432 is left when none has.
    The case of ASCII letters is immaterial, [None] and the empty string map
    to 432, and the two examples of the specification evaluate as stated. *)
Theorem map_freq_precedence (ray : option pystr) :
  let r := lower (or_empty ray) in
  let has x := substring (py x) r in
  let rule1 := has "violet"%string in
  let rule2 := has "indigo"%string \/ has "silver"%string in
  let rule3 := has "gold"%string \/ has "emerald"%string \/ has "green"%string
               \/ has "aquamarine"%string \/ has "turquoise"%string in
  let rule4 := has "crimson"%string in
  let rule5 := has "scarlet"%string \/ has "red"%string in
  In (map_freq ray) [963; 852; 528; 417; 285; 432] /\
  (map_freq ray = 963 <-> rule1) /\
  (map_freq ray = 852 <-> ~ rule1 /\ rule2) /\
  (map_freq ray = 528 <-> ~ rule1 /\ ~ rule2 /\ rule3) /\
  (map_freq ray = 417 <-> ~ rule1 /\ ~ rule2 /\ ~ rule3 /\ rule4) /\
  (map_freq ray = 285 <-> ~ rule1 /\ ~ rule2 /\ ~ rule3 /\ ~ rule4 /\ rule5) /\
  (map_freq ray = 432 <-> ~ rule1 /\ ~ rule2 /\ ~ rule3 /\ ~ rule4 /\ ~ rule5) /\
  (forall s t, same_but_case s t -> map_freq (Some s) = map_freq (Some t)) /\
  map_freq (Some (py "emerald and silver")) = 852 /\
  map_freq (Some (py "unknown hue")) = 432 /\
  map_freq None = 432 /\
  map_freq (Some []) = 432.
Proof.
  cbv zeta.
  assert (Hcase : forall s t, same_but_case s t ->
                              map_freq (Some s) = map_freq (Some t)).
  { intros s t H. unfold map_freq. rewrite !or_empty_some.
    now rewrite (lower_same_but_case s t H). }
  repeat match goal with |- _ /\ _ => split end;
    try exact Hcase; try (vm_compute; reflexivity); clear Hcase;
    unfold map_freq; cbn [existsb];
    repeat match goal with
           | |- context [str_in ?x ?s] =>
               destruct (str_in_reflect x s); cbn [orb]
           end;
    cbn [In]; intuition (try discriminate).
Qed.

(** ** Suit classifier *)

(** C4: [suit] is total with values in the five suit names, fixed by the
    first rule, in the order wands, cups, pentacles/coin, swords/blade, whose
    keyword occurs in the lowered name, and [majors] when none does.  The
    case of ASCII letters is immaterial, and the three examples of the
    specification evaluate as stated. *)
Theorem suit_priority (n : pystr) :
  let s := lower n in
  let has x := substring (py x) s in
  let rule1 := has "wands"%string in
  let rule2 := has "cups"%string in
  let rule3 := has "pentacles"%string \/ has "coin"%string in
  let rule4 := has "swords"%string \/ has "blade"%string in
  In (suit n) [py "wands"; py "cups"; py "pentacles"; py "swords"; py "majors"] /\
  (suit n = py "wands" <-> rule1) /\
  (suit n = py "cups" <-> ~ rule1 /\ rule2) /\
  (suit n = py "pentacles" <-> ~ rule1 /\ ~ rule2 /\ rule3) /\
  (suit n = py "swords" <-> ~ rule1 /\ ~ rule2 /\ ~ rule3 /\ rule4) /\
  (suit n = py "majors" <-> ~ rule1 /\ ~ rule2 /\ ~ rule3 /\ ~ rule4) /\
  (forall t, same_but_case n t -> suit n = suit t) /\
  suit (py "Queen of Coins") = py "pentacles" /\
  suit (py "Hero of Swords") = py "swords" /\
  suit (py "The Fool") = py "majors".
Proof.
  cbv zeta.
  assert (Hcase : forall t, same_but_case n t -> suit n = suit t).
  { intros t H. unfold suit. now rewrite (lower_same_but_case n t H). }
  repeat match goal with |- _ /\ _ => split end;
    try exact Hcase; try (vm_compute; reflexivity); clear Hcase;
    unfold suit;
    repeat match goal with
           | |- context [str_in ?x ?s] =>
               destruct (str_in_reflect x s); cbn [orb]
           end;
    cbn [In];
    intuition (try match goal with
                   | H : py _ = py _ |- _ => vm_compute in H; discriminate H
                   end).
Qed.

(** ** The matcher *)

Section MatcherFacts.
Context {A : Type}.
Implicit Types (k : cursor -> option A) (c : cursor).

Lemma moved_nil c t : rest c = t -> moved c [] t = c.
Proof. intros <-. now destruct c. Qed.

Lemma exec_Cat r1 r2 c k :
  exec (Cat r1 r2) A c k = exec r1 A c (fun c' => exec r2 A c' k).
Proof. reflexivity. Qed.

Lemma exec_Grp r c k :
  exec (Grp r) A c k = exec r A c (fun c' => k (capture c c')).
Proof. reflexivity. Qed.

Lemma exec_Chr_hit x c t k :
  rest c = x :: t -> exec (Chr x) A c k = k (advance c x t).
Proof. intros E. cbn [exec]. now rewrite E, Z.eqb_refl. Qed.

Lemma exec_Chr_inv x c k a :
  exec (Chr x) A c k = Some a ->
  exists t, rest c = x :: t /\ k (advance c x t) = Some a.
Proof.
  cbn [exec]. destruct (rest c) as [|y t]; [discriminate|].
  destruct (Z.eqb_spec y x) as [->|]; [eauto | discriminate].
Qed.

Lemma exec_Cls_hit p y c t k :
  rest c = y :: t -> p y = true -> exec (Cls p) A c k = k (advance c y t).
Proof. intros E Hy. cbn [exec]. now rewrite E, Hy. Qed.

Lemma exec_Bol_hit c k : at_bol c = true -> exec Bol A c k = k c.
Proof. intros E. cbn [exec]. now rewrite E. Qed.

Lemma exec_Eol_hit c k : at_eol c = true -> exec Eol A c k = k c.
Proof. intros E. cbn [exec]. now rewrite E. Qed.

(** A repetition of a class, one code point at a time. *)
Lemma exec_rep_cls g p c k :
  exec (Rep g (Cls p)) A c k =
  match rest c with
  | [] => k c
  | y :: t =>
      let again :=
        if p y then exec (Rep g (Cls p)) A (advance c y t) k else None in
      if g then orelse again (k c) else orelse (k c) again
  end.
Proof.
  cbn [exec]. destruct (rest c) as [|y t] eqn:E; cbn [List.length rep_loop].
  - now destruct g, (k c).
  - cbn [exec]. rewrite E. destruct (p y); [|reflexivity].
    cbn [advance rest List.length].
    replace (List.length t <? S (List.length t))%nat with true
      by (symmetry; apply Nat.ltb_lt; lia).
    reflexivity.
Qed.

(** A greedy repetition of a class reads the longest run first. *)
Lemma greedy_run p w : forall c t k a,
  rest c = w ++ t ->
  Forall (fun y => p y = true) w ->
  stops p t ->
  k (moved c w t) = Some a ->
  exec (Rep true (Cls p)) A c k = Some a.
Proof.
  induction w as [|y w IH]; intros c t k a E Hw Ht Hk; rewrite exec_rep_cls, E.
  - cbn [app] in *. rewrite (moved_nil c t E) in Hk.
    destruct t as [|y t]; [exact Hk|]. cbn in Ht. rewrite Ht. cbn. exact Hk.
  - cbn [app]. inversion Hw as [|? ? Hy Hw']; subst. rewrite Hy. cbn zeta.
    rewrite (IH (advance c y (w ++ t)) t k a); try easy.
Qed.

(** Whatever a repetition does, it succeeds where stopping at once does. *)
Lemma exec_rep_stop g r c k :
  k c <> None -> exec (Rep g r) A c k <> None.
Proof.
  intros H. cbn [exec]. destruct (List.length (rest c)); cbn [rep_loop];
    destruct g; unfold orelse;
    repeat match goal with |- context [match ?x with _ => _ end] =>
                             destruct x end; congruence.
Qed.

(** A lazy repetition of a class reaches the end of any run of the class. *)
Lemma lazy_reach p w : forall c t k,
  rest c = w ++ t ->
  Forall (fun y => p y = true) w ->
  (forall c', rest c' = t -> k c' <> None) ->
  exec (Rep false (Cls p)) A c k <> None.
Proof.
  induction w as [|y w IH]; intros c t k E Hw Hk.
  - apply exec_rep_stop, Hk, E.
  - rewrite exec_rep_cls, E. cbn [app].
    inversion Hw as [|? ? Hy Hw']; subst. rewrite Hy. cbn zeta.
    unfold orelse. destruct (k c); [congruence|].
    now apply (IH (advance c y (w ++ t)) t k).
Qed.

(** What a repetition of a class has read when the match succeeds. *)
Lemma rep_cls_sound g p : forall s c k a,
  rest c = s ->
  exec (Rep g (Cls p)) A c k = Some a ->
  exists w t, s = w ++ t /\ Forall (fun y => p y = true) w /\
              k (moved c w t) = Some a.
Proof.
  induction s as [|y s IH]; intros c k a E H; rewrite exec_rep_cls, E in H.
  - exists [], []. rewrite (moved_nil c [] E). now repeat split.
  - assert (Stop : k c = Some a ->
                   exists w t, y :: s = w ++ t /\
                               Forall (fun y => p y = true) w /\
                               k (moved c w t) = Some a).
    { intros Hk. exists [], (y :: s). rewrite (moved_nil c _ E). now repeat split. }
    assert (More : p y = true ->
                   exec (Rep g (Cls p)) A (advance c y s) k = Some a ->
                   exists w t, y :: s = w ++ t /\
                               Forall (fun y => p y = true) w /\
                               k (moved c w t) = Some a).
    { intros Hy Hr. destruct (IH (advance c y s) k a eq_refl Hr)
        as (w & t & -> & Hw & Hk).
      exists (y :: w), t. repeat split; [now constructor | exact Hk]. }
    cbn zeta in H. unfold orelse in H.
    destruct (p y), g;
      repeat match type of H with
             | match ?x with _ => _ end = _ => destruct x eqn:?
             end; try discriminate; auto;
      injection H as <-; auto.
Qed.

(** A literal is read code point by code point. *)
Lemma exec_lit s : forall r c t k,
  rest c = s ++ t ->
  exec (Lit s r) A c k = exec r A (moved c s t) k.
Proof.
  induction s as [|y s IH]; intros r c t k E; cbn [Lit].
  - cbn [app] in E. now rewrite (moved_nil c t E).
  - cbn [exec]. rewrite E. cbn [app]. rewrite Z.eqb_refl.
    now rewrite (IH r (advance c y (s ++ t)) t k).
Qed.

(** A successful match has handed some position to its continuation. *)
Lemma exec_cont r : forall B (c : cursor) (k : cursor -> option B) a,
  exec r B c k = Some a -> exists c', k c' = Some a.
Proof.
  induction r as [x|p|r1 IH1 r2 IH2|g r IH|r IH|r IH| |];
    intros B c k a H; cbn [exec] in H.
  - destruct (rest c) as [|y t]; [discriminate|].
    destruct (y =? x); [eauto | discriminate].
  - destruct (rest c) as [|y t]; [discriminate|].
    destruct (p y); [eauto | discriminate].
  - apply IH1 in H as [c1 H]. now apply IH2 in H.
  - remember (List.length (rest c)) as n eqn:Hn. clear Hn. revert c H.
    induction n as [|n IHn]; intros c' H; cbn [rep_loop] in H.
    + unfold orelse in H.
      destruct g, (k c') eqn:Hk; try discriminate; injection H as ->; eauto.
    + assert (More :
                 exec r B c'
                      (fun c'0 =>
                         if (List.length (rest c'0) <? List.length (rest c'))%nat
                         then rep_loop (exec r B) g k n c'0 else None) = Some a ->
                 exists c1, k c1 = Some a).
      { intros Hx. apply IH in Hx as [c1 Hx].
        destruct (List.length (rest c1) <? List.length (rest c'))%nat;
          [now apply IHn in Hx | discriminate]. }
      unfold orelse in H. destruct g;
        repeat match type of H with
               | match ?x with _ => _ end = _ => destruct x eqn:?
               end; try discriminate; try injection H as ->; eauto.
  - apply IH in H as [c1 H]. eauto.
  - destruct (exec r unit c (fun _ => Some tt)); [eauto | discriminate].
  - destruct (at_bol c); [eauto | discriminate].
  - destruct (at_eol c); [eauto | discriminate].
Qed.

End MatcherFacts.

(** ** Searching *)

Lemma search_hit r prev s m :
  match_at r (start_at prev s) = Some m -> search_from r prev s = Some m.
Proof. intros H. destruct s; cbn [search_from]; now rewrite H. Qed.

(** A pattern that starts with a literal code point cannot match before
    the first occurrence of it. *)
Lemma search_skip x r pre : forall prev s,
  ~ In x pre ->
  search_from (Cat (Chr x) r) prev (pre ++ s) =
  search_from (Cat (Chr x) r) (fold_left (fun _ y => Some y) pre prev) s.
Proof.
  induction pre as [|y pre IH]; intros prev s H; [reflexivity|].
  cbn [app search_from]. unfold match_at at 1. cbn [exec start_at rest].
  destruct (Z.eqb_spec y x) as [->|N]; [exfalso; apply H; now left|].
  cbn [fold_left]. apply IH. intros Hin; apply H; now right.
Qed.

(** A search moves past every position where the pattern fails. *)
Lemma search_skip_fail r pre : forall prev s,
  (forall u v p, pre = u ++ v -> v <> [] ->
                 match_at r (start_at p (v ++ s)) = None) ->
  search_from r prev (pre ++ s) =
  search_from r (fold_left (fun _ y => Some y) pre prev) s.
Proof.
  induction pre as [|y pre IH]; intros prev s H; [reflexivity|].
  assert (E : match_at r (start_at prev ((y :: pre) ++ s)) = None)
    by (now apply (H [] (y :: pre) prev)).
  cbn [app] in E. cbn [app search_from]. rewrite E. cbn [fold_left]. apply IH. intros u v p -> Hv. now apply (H (y :: u) v p).
Qed.

Lemma search_first_chr x r : forall s prev m,
  search_from (Cat (Chr x) r) prev s = Some m -> In x s.
Proof.
  induction s as [|y s IH]; intros prev m H; cbn [search_from] in H.
  - unfold match_at in H; cbn in H. discriminate.
  - unfold match_at in H. cbn [exec start_at rest] in H.
    destruct (Z.eqb_spec y x) as [->|N]; [now left|]. right. eapply IH, H.
Qed.

Lemma exec_lit_inv {A : Type} s : forall r c (k : cursor -> option A) a,
  exec (Lit s r) A c k = Some a -> exists t, rest c = s ++ t.
Proof.
  induction s as [|x s IH]; intros r c k a H; cbn [Lit] in H.
  - now exists (rest c).
  - cbn [exec] in H. destruct (rest c) as [|y t] eqn:E; [discriminate|].
    destruct (Z.eqb_spec y x) as [->|N]; [|discriminate].
    apply IH in H as [t' Ht]. cbn in Ht. exists t'. now rewrite Ht.
Qed.

Lemma exec_lit_cont {A : Type} s : forall r c (k : cursor -> option A) a,
  exec (Lit s r) A c k = Some a -> exists c', exec r A c' k = Some a.
Proof.
  induction s as [|x s IH]; intros r c k a H; cbn [Lit] in H; [eauto|].
  rewrite exec_Cat in H. apply exec_cont in H as [c1 H]. now apply IH in H.
Qed.

Lemma search_from_inv r : forall s prev m,
  search_from r prev s = Some m -> exists c, match_at r c = Some m.
Proof.
  induction s as [|y s IH]; intros prev m H; cbn [search_from] in H;
    destruct (match_at r _) eqn:E; try discriminate;
    try (injection H as ->; eauto).
  now apply IH in H.
Qed.

(** A pattern that starts with a literal matches only where the literal
    occurs. *)
Lemma search_lit_substring x r : forall s prev m,
  search_from (Lit x r) prev s = Some m -> substring x s.
Proof.
  induction s as [|y s IH]; intros prev m H; cbn [search_from] in H;
    destruct (match_at (Lit x r) _) eqn:E.
  - apply exec_lit_inv in E as [t Ht]. exists [], t. exact Ht.
  - discriminate.
  - apply exec_lit_inv in E as [t Ht]. exists [], t. exact Ht.
  - apply IH in H as (a & b & ->). now exists (y :: a), b.
Qed.

(** ** Groups *)

Lemma firstn_consumed (g t : pystr) :
  firstn (List.length (g ++ t) - List.length t) (g ++ t) = g.
Proof.
  rewrite length_app, Nat.add_sub, firstn_app, firstn_all, Nat.sub_diag.
  cbn. apply app_nil_r.
Qed.

Lemma group_capture c g t :
  rest c = g ++ t -> group (capture c (moved c g t)) = g.
Proof.
  intros E. unfold group, capture, moved; cbn. rewrite E. apply firstn_consumed.
Qed.

(** [(p+)] at the end of a pattern captures the longest run of the class. *)
Lemma grp_plus_hit p c g t :
  rest c = g ++ t ->
  g <> [] ->
  Forall (fun y => p y = true) g ->
  stops p t ->
  match_at (Grp (Plus true (Cls p))) c = Some (capture c (moved c g t)).
Proof.
  intros E Hne Hg Ht. destruct g as [|y w]; [congruence|].
  inversion Hg as [|? ? Hy Hw]; subst.
  unfold match_at, Plus. cbn [exec]. rewrite E. cbn [app]. rewrite Hy.
  now apply (greedy_run p w (advance c y (w ++ t)) t).
Qed.

(** What [(p+)] at the end of a pattern has captured. *)
Lemma grp_plus_inv p c m :
  match_at (Grp (Plus true (Cls p))) c = Some m ->
  exists g, group1 m = Some g /\ g <> [] /\
            Forall (fun y => p y = true) g /\ rest c = g ++ rest m.
Proof.
  unfold match_at, Plus. cbn [exec]. intros H.
  destruct (rest c) as [|y s] eqn:E; [discriminate|].
  destruct (p y) eqn:Hy; [|discriminate].
  apply (rep_cls_sound true p s) in H as (w & t & -> & Hw & H); [|reflexivity].
  injection H as <-. exists (y :: w). cbn [capture moved group1 rest].
  rewrite E. change (y :: w ++ t) with ((y :: w) ++ t).
  rewrite firstn_consumed. repeat split; [discriminate | now constructor].
Qed.

(** ** Headings *)

Lemma isspace_not_nl y : isspace y = false -> not_nl y = true.
Proof.
  intros H. unfold not_nl, NL. destruct (Z.eqb_spec y 10) as [->|]; [|reflexivity].
  discriminate H.
Qed.

Lemma split_blank : forall t : pystr,
  (exists x, In x t /\ isspace x = false) ->
  exists w y t', t = w ++ y :: t' /\ blank w /\ isspace y = false.
Proof.
  induction t as [|c t IH]; intros (x & Hin & Hx); [destruct Hin|].
  destruct (isspace c) eqn:Hc.
  - destruct Hin as [->|Hin]; [congruence|].
    destruct IH as (w & y & t' & -> & Hw & Hy); [now exists x|].
    exists (c :: w), y, t'. repeat split; [now constructor | exact Hy].
  - exists [], c, t. repeat split; [constructor | exact Hc].
Qed.

Lemma split_line : forall t : pystr,
  exists line tail, t = line ++ tail /\
                    Forall (fun y => not_nl y = true) line /\ stops not_nl tail.
Proof.
  induction t as [|c t (line & tail & -> & Hl & Ht)].
  - exists [], []. now repeat split.
  - destruct (not_nl c) eqn:Hc.
    + exists (c :: line), tail. repeat split; [now constructor | exact Ht].
    + exists [], (c :: line ++ tail). repeat split; [constructor | exact Hc].
Qed.

(** A segment that starts with [## ] and holds some code point that is not
    white space after it has a heading: the search of the loop succeeds. *)
Lemma heading_found (t : pystr) :
  (exists x, In x t /\ isspace x = false) ->
  re_search heading_re (35 :: 35 :: 32 :: t) <> None.
Proof.
  intros Hx. destruct (split_blank t Hx) as (w & y & t' & -> & Hw & Hy).
  destruct (split_line t') as (line & tail & -> & Hl & Ht).
  unfold re_search. cbn [search_from].
  destruct (match_at heading_re _) eqn:E; [discriminate|]. exfalso.
  revert E. unfold match_at, heading_re, Plus.
  rewrite exec_Cat, exec_Bol_hit by reflexivity.
  rewrite exec_Cat, (exec_Chr_hit 35 _ (35 :: 32 :: w ++ y :: line ++ tail))
    by reflexivity.
  rewrite exec_Cat, (exec_Chr_hit 35 _ (32 :: w ++ y :: line ++ tail))
    by reflexivity.
  rewrite !exec_Cat, (exec_Cls_hit isspace 32 _ (w ++ y :: line ++ tail))
    by reflexivity.
  match goal with
  | |- exec (Rep true (Cls isspace)) _ ?c ?k = None -> False =>
      destruct (k (moved c w (y :: line ++ tail))) as [a|] eqn:Hk;
      [ intros E; rewrite (greedy_run isspace w c (y :: line ++ tail) k a) in E;
        [discriminate | reflexivity | exact Hw | exact Hy | exact Hk]
      | intros _; revert Hk ]
  end.
  rewrite exec_Cat, exec_Grp, exec_Cat.
  rewrite (exec_Cls_hit not_nl y _ (line ++ tail))
    by (try reflexivity; now apply isspace_not_nl).
  match goal with |- ?x = None -> False => change (x <> None) end.
  apply (lazy_reach not_nl line _ tail); [reflexivity | exact Hl |].
  intros c' Hc'. rewrite exec_Cat. apply exec_rep_stop.
  rewrite exec_Eol_hit; [discriminate|].
  unfold at_eol. cbn [capture rest]. rewrite Hc'.
  destruct tail as [|z tail]; [reflexivity|].
  cbn in Ht. unfold not_nl in Ht. now destruct (z =? NL).
Qed.

(** ** Field extractor *)

Lemma stops_app_cons p (k : pystr) x t :
  stops p k -> p x = false -> stops p (k ++ x :: t).
Proof. now destruct k. Qed.

Lemma stops_app p (line t : pystr) :
  line <> [] -> stops p line -> stops p (line ++ t).
Proof. now destruct line. Qed.

Lemma field_missing b k : re_search (field_re k) b = None -> field b k = [].
Proof. unfold field. now intros ->. Qed.

(** A block without a hyphen has no field at all. *)
Lemma field_needs_hyphen b k : field b k <> [] -> In 45 b.
Proof.
  unfold field, re_search, field_re. intros H.
  destruct (search_from _ None b) eqn:E; [|congruence].
  eapply search_first_chr, E.
Qed.

(** The value [field] returns where the key first follows a hyphen: after
    the colon it skips every white space, line breaks included, and returns
    the trimmed rest of the line it lands on. *)
Lemma no_hyphen_no_earlier_key k pre s : ~ In 45 pre -> no_earlier_key k pre s.
Proof. intros H u v w t ->. exfalso. apply H, in_elt. Qed.

(** The pattern of [field] fails wherever no hyphen is followed by optional
    white space, the key and a colon. *)
Lemma field_re_fails k pre s :
  no_earlier_key k pre s ->
  forall u v p, pre = u ++ v -> v <> [] ->
                match_at (field_re k) (start_at p (v ++ s)) = None.
Proof.
  intros H u v p E Hv.
  destruct (match_at (field_re k) _) as [m|] eqn:M; [exfalso | reflexivity].
  destruct v as [|y v]; [congruence|]. unfold match_at, field_re in M.
  rewrite exec_Cat in M. apply exec_Chr_inv in M as (t0 & E0 & M).
  cbn [start_at rest app] in E0. injection E0 as -> <-.
  rewrite exec_Cat in M.
  apply (rep_cls_sound true isspace (v ++ s)) in M as (w & t & Ew & Hw & M);
    [|reflexivity].
  destruct (exec_lit_inv k _ _ _ _ M) as (t1 & Et).
  rewrite (exec_lit k _ _ t1 _ Et), exec_Cat in M.
  apply exec_Chr_inv in M as (t2 & E2 & _). cbn [moved rest] in Et, E2.
  apply (H u v w t2 E Hw). now rewrite Ew, Et, E2.
Qed.

(** The value [field] returns at the first place of a block where a hyphen,
    optional white space, the key and a colon occur: after the colon it
    skips every white space, line breaks included, and returns the trimmed
    rest of the line it lands on. *)
Lemma field_value pre sp k gap line tail :
  no_earlier_key k pre (45 :: sp ++ k ++ 58 :: gap ++ line ++ tail) ->
  blank sp ->
  stops isspace k ->
  blank gap ->
  line <> [] ->
  stops isspace line ->
  Forall (fun y => not_nl y = true) line ->
  stops not_nl tail ->
  field (pre ++ 45 :: sp ++ k ++ 58 :: gap ++ line ++ tail) k = strip line.
Proof.
  intros Hpre Hsp Hk Hgap Hne Hline Hnl Htail.
  unfold field, re_search.
  rewrite search_skip_fail by (now apply field_re_fails).
  unfold field_re. erewrite search_hit.
  2:{ unfold match_at.
      rewrite exec_Cat,
        (exec_Chr_hit 45 _ (sp ++ k ++ 58 :: gap ++ line ++ tail)) by reflexivity.
      rewrite exec_Cat.
      eapply (greedy_run isspace sp _ (k ++ 58 :: gap ++ line ++ tail));
        [reflexivity | exact Hsp | now apply stops_app_cons |].
      rewrite (exec_lit k _ _ (58 :: gap ++ line ++ tail)) by reflexivity.
      rewrite exec_Cat, (exec_Chr_hit 58 _ (gap ++ line ++ tail)) by reflexivity.
      rewrite exec_Cat.
      eapply (greedy_run isspace gap _ (line ++ tail));
        [reflexivity | exact Hgap | now apply stops_app |].
      apply (grp_plus_hit not_nl _ line tail);
        [reflexivity | exact Hne | exact Hnl | exact Htail]. }
  now rewrite group_capture.
Qed.

(** ** Solfeggio marker *)

Lemma solfeggio_absent tech :
  ~ substring (py "Solfeggio") tech -> re_search solfeggio_re tech = None.
Proof.
  intros H. unfold re_search, solfeggio_re.
  destruct (search_from _ None tech) eqn:E; [|reflexivity].
  apply search_lit_substring in E. contradiction.
Qed.

(** The first marker of a text and the number it captures: the longest run
    of digits and dots after the equals sign. *)
Lemma solfeggio_value pre ws1 ws2 num post :
  ~ In 83 pre ->
  blank ws1 ->
  blank ws2 ->
  num <> [] ->
  Forall (fun y => digit_or_dot y = true) num ->
  stops isspace num ->
  stops digit_or_dot post ->
  exists m,
    re_search solfeggio_re
              (pre ++ py "Solfeggio" ++ ws1 ++ 61 :: ws2 ++ num ++ post) = Some m
    /\ group m = num.
Proof.
  intros Hpre H1 H2 Hne Hnum Hsp Hpost. eexists. split.
  - unfold re_search.
    change solfeggio_re
      with (Cat (Chr 83)
                (Lit (py "olfeggio")
                     (Cat (Rep true (Cls isspace))
                          (Cat (Chr 61)
                               (Cat (Rep true (Cls isspace))
                                    (Grp (Plus true (Cls digit_or_dot)))))))).
    rewrite search_skip by exact Hpre. apply search_hit. unfold match_at.
    rewrite exec_Cat,
      (exec_Chr_hit 83 _ (py "olfeggio" ++ ws1 ++ 61 :: ws2 ++ num ++ post))
      by reflexivity.
    rewrite (exec_lit (py "olfeggio") _ _ (ws1 ++ 61 :: ws2 ++ num ++ post))
      by reflexivity.
    rewrite exec_Cat.
    eapply (greedy_run isspace ws1 _ (61 :: ws2 ++ num ++ post));
      [reflexivity | exact H1 | reflexivity |].
    rewrite exec_Cat, (exec_Chr_hit 61 _ (ws2 ++ num ++ post)) by reflexivity.
    rewrite exec_Cat.
    eapply (greedy_run isspace ws2 _ (num ++ post));
      [reflexivity | exact H2 | now apply stops_app |].
    apply (grp_plus_hit digit_or_dot _ num post);
      [reflexivity | exact Hne | exact Hnum | exact Hpost].
  - now rewrite group_capture.
Qed.

(** A match of the marker pattern captures a run of digits and dots that is
    not empty. *)
Lemma solfeggio_capture tech m :
  re_search solfeggio_re tech = Some m ->
  group m <> [] /\ Forall (fun y => digit_or_dot y = true) (group m).
Proof.
  intros H. apply search_from_inv in H as [c E].
  unfold match_at, solfeggio_re in E.
  apply exec_lit_cont in E as [c1 E].
  rewrite exec_Cat in E. apply exec_cont in E as [c2 E].
  rewrite exec_Cat in E. apply exec_cont in E as [c3 E].
  rewrite exec_Cat in E. apply exec_cont in E as [c4 E].
  apply grp_plus_inv in E as (g & Hg & Hne & Hall & _).
  unfold group. rewrite Hg. now split.
Qed.

(** ** Float literals *)

Lemma scan_decimal_none : forall s dot digit m den,
  Forall (fun y => digit_or_dot y = true) s ->
  scan_decimal s dot digit m den = None <->
  (digit || existsb isdecimal s = false
   \/ 2 <= (if dot then 1 else 0) + dots s)%nat.
Proof.
  induction s as [|c s IH]; intros dot digit m den Hs.
  - cbn. destruct digit, dot; cbn; split; intros H;
      try discriminate; try reflexivity; try (now left);
      destruct H; try discriminate; lia.
  - inversion Hs as [|? ? Hc Hs']; subst. cbn [scan_decimal existsb].
    unfold dots. cbn [List.filter].
    destruct (Z.eqb_spec c 46) as [->|N].
    + rewrite Z.eqb_refl. cbn [List.length]. change (isdecimal 46) with false.
      cbn [orb]. fold (dots s). destruct dot.
      * split; [intros _; right; lia | reflexivity].
      * rewrite (IH true digit m den Hs'). split; intros [H|H]; auto; right; lia.
    + replace (46 =? c) with false by (symmetry; apply Z.eqb_neq; congruence).
      fold (dots s). unfold digit_or_dot in Hc.
      replace (c =? 46) with false in Hc by (symmetry; now apply Z.eqb_neq).
      rewrite orb_false_r in Hc. rewrite Hc. unfold isdecimal in Hc.
      destruct (decimal_value c) as [d|]; [|discriminate].
      rewrite IH by exact Hs'. cbn [orb]. rewrite orb_true_r. reflexivity.
Qed.

(** [float] raises on a run of digits and dots exactly when the run has no
    digit or more than one dot. *)
Lemma float_of_str_none s :
  Forall (fun y => digit_or_dot y = true) s ->
  float_of_str s = None <-> float_literal s = false.
Proof.
  intros Hs. unfold float_of_str, float_literal.
  pose proof (scan_decimal_none s false false 0 1%positive Hs) as H.
  destruct (scan_decimal s false false 0 1) as [q|]; cbn [option_map].
  - split; [discriminate|]. intros E. exfalso.
    assert (X : Some q = None); [|discriminate X].
    apply H. cbn [orb]. destruct (existsb isdecimal s); cbn in E.
    + right. apply Nat.leb_gt in E. lia.
    + now left.
  - split; [|reflexivity]. intros _.
    destruct H as [H _]. specialize (H eq_refl). cbn [orb] in H.
    destruct H as [-> | H]; [reflexivity|].
    destruct (existsb isdecimal s); [|reflexivity]. cbn.
    apply Nat.leb_gt. lia.
Qed.

(** ** The loop body *)

Lemma truthy_iff (s : pystr) : truthy s = true <-> s <> [].
Proof. destruct s; cbn; split; congruence. Qed.

Lemma assemble_skipped b :
  assemble b = Skipped <->
  re_search heading_re b = None \/ field b (py "App Pulls") = [].
Proof.
  unfold assemble. destruct (re_search heading_re b) as [m|].
  - destruct (field b (py "App Pulls")) eqn:E; cbn [truthy negb].
    + split; auto.
    + destruct (angel_demon _), (freq_of _ _); split;
        try discriminate; intros [H|H]; discriminate.
  - split; auto.
Qed.

Lemma assemble_raised b :
  assemble b = ValueError <->
  re_search heading_re b <> None /\ field b (py "App Pulls") <> [] /\
  freq_of (field b (py "Technical")) (field b (py "Ray")) = None.
Proof.
  unfold assemble. destruct (re_search heading_re b) as [m|].
  - destruct (field b (py "App Pulls")) eqn:E; cbn [truthy negb].
    + split; [discriminate | intros (_ & H & _); congruence].
    + destruct (angel_demon _), (freq_of _ _); split;
        try discriminate; try reflexivity;
        try (intros (_ & _ & H); discriminate).
      intros _. repeat split; discriminate.
  - split; [discriminate | intros (H & _); congruence].
Qed.

(** The entries of an appended record that are computed, not copied. *)
Lemma assemble_appended b r :
  assemble b = Appended r ->
  exists m,
    re_search heading_re b = Some m /\
    field b (py "App Pulls") <> [] /\
    freq_of (field b (py "Technical")) (field b (py "Ray")) = Some (c_freq r) /\
    c_name r = strip (group m) /\
    c_id r = lower (re_sub nonword_re (py "_") (c_name r)) /\
    c_suit r = suit (c_name r) /\
    c_appPulls r = field b (py "App Pulls") /\
    c_ray r = field b (py "Ray") /\
    c_technical r = field b (py "Technical") /\
    (c_angel r, c_demon r) = angel_demon (field b (py "Angel/Demon")) /\
    c_crystal r = crystal_of (field b (py "Crystal")) /\
    c_chemistry r = chem_of (field b (py "Crystal")).
Proof.
  unfold assemble. destruct (re_search heading_re b) as [m|]; [|discriminate].
  destruct (field b (py "App Pulls")) eqn:E; cbn [truthy negb]; [discriminate|].
  destruct (angel_demon _) as [angel demon] eqn:Ead.
  destruct (freq_of _ _) as [freq|] eqn:Ef; [|discriminate].
  intros H. injection H as <-. exists m. cbn.
  repeat split; try reflexivity. discriminate.
Qed.

Lemma assemble_appended_iff b :
  (exists r, assemble b = Appended r) <->
  re_search heading_re b <> None /\ field b (py "App Pulls") <> [] /\
  freq_of (field b (py "Technical")) (field b (py "Ray")) <> None.
Proof.
  split.
  - intros [r H]. apply assemble_appended in H as (m & -> & H1 & -> & _).
    repeat split; [discriminate | exact H1 | discriminate].
  - intros (H1 & H2 & H3).
    destruct (assemble b) as [|c|] eqn:E; [| now exists c |].
    + apply assemble_skipped in E as [E|E]; contradiction.
    + apply assemble_raised in E as (_ & _ & E). contradiction.
Qed.

(** ** Blocks *)

Lemma block_shape md b : In b (blocks md) -> exists t, b = 35 :: 35 :: 32 :: t.
Proof.
  unfold blocks. rewrite filter_In. intros [_ H].
  apply startswith_iff in H as [t ->]. now exists t.
Qed.

(** A block with an [App Pulls] value has a heading. *)
Lemma block_heading t :
  field (35 :: 35 :: 32 :: t) (py "App Pulls") <> [] ->
  re_search heading_re (35 :: 35 :: 32 :: t) <> None.
Proof.
  intros H. apply field_needs_hyphen in H. apply heading_found.
  exists 45. split; [|reflexivity].
  destruct H as [H|[H|[H|H]]]; try discriminate. exact H.
Qed.

Lemma block_skipped md b :
  In b (blocks md) ->
  assemble b = Skipped <-> field b (py "App Pulls") = [].
Proof.
  intros Hb. rewrite assemble_skipped. split; [|now right].
  intros [H|H]; [|exact H]. destruct (block_shape md b Hb) as [t ->].
  destruct (field _ (py "App Pulls")) eqn:E; [reflexivity|].
  exfalso. apply (block_heading t); [|exact H]. rewrite E. discriminate.
Qed.

(** ** The loop *)

Lemma card_loop_some md : forall bs acc cards,
  (forall b, In b bs -> In b (blocks md)) ->
  card_loop bs acc = Some cards ->
  exists new, cards = acc ++ new /\
              Forall2 (fun b c => assemble b = Appended c)
                      (List.filter has_app_pulls bs) new.
Proof.
  induction bs as [|b bs IH]; intros acc cards Hbs H; cbn [card_loop] in H.
  - injection H as <-. exists []. split; [now rewrite app_nil_r | constructor].
  - assert (Hb : In b (blocks md)) by (apply Hbs; now left).
    assert (Hbs' : forall b', In b' bs -> In b' (blocks md))
      by (intros b' Hin; apply Hbs; now right).
    cbn [List.filter]. unfold has_app_pulls at 1.
    destruct (assemble b) as [|c|] eqn:E; [| |discriminate].
    + apply (block_skipped md b Hb) in E. rewrite E. cbn [truthy].
      now apply IH.
    + destruct (assemble_appended b c E) as (_ & _ & Hap & _).
      apply truthy_iff in Hap. rewrite Hap.
      destruct (IH _ _ Hbs' H) as (new & -> & Hnew).
      exists (c :: new). split; [now rewrite <- app_assoc | now constructor].
Qed.

Lemma card_loop_none : forall bs acc,
  card_loop bs acc = None <-> exists b, In b bs /\ assemble b = ValueError.
Proof.
  induction bs as [|b bs IH]; intros acc; cbn [card_loop].
  - split; [discriminate | intros (b & [] & _)].
  - destruct (assemble b) as [|c|] eqn:E.
    + rewrite IH. split; intros (b' & Hin & H).
      * exists b'. split; [now right | exact H].
      * destruct Hin as [<-|Hin]; [congruence | now exists b'].
    + rewrite IH. split; intros (b' & Hin & H).
      * exists b'. split; [now right | exact H].
      * destruct Hin as [<-|Hin]; [congruence | now exists b'].
    + split; [intros _; exists b; split; [now left | exact E] | reflexivity].
Qed.

(** ** Trimming, splitting and slicing *)

Lemma lstrip_stops s : stops isspace (lstrip s).
Proof.
  induction s as [|c s IH]; cbn; [exact I|].
  destruct (isspace c) eqn:E; [exact IH | exact E].
Qed.

Lemma lstrip_fix s : stops isspace s -> lstrip s = s.
Proof. destruct s as [|c s]; cbn; [reflexivity | now intros ->]. Qed.

Lemma lstrip_split s : exists w, s = w ++ lstrip s /\ blank w.
Proof.
  induction s as [|c s (w & E & Hw)];
    [exists []; split; [reflexivity | constructor]|].
  cbn. destruct (isspace c) eqn:Hc.
  - exists (c :: w). split; [now rewrite E at 1 | now constructor].
  - exists []. split; [reflexivity | constructor].
Qed.

Lemma rstrip_split s : exists w, s = rstrip s ++ w /\ blank w.
Proof.
  destruct (lstrip_split (rev s)) as (w & E & Hw). exists (rev w). split.
  - unfold rstrip. rewrite <- rev_app_distr, <- E. symmetry. apply rev_involutive.
  - now apply Forall_rev.
Qed.

Lemma rstrip_stops s : stops isspace s -> stops isspace (rstrip s).
Proof.
  intros H. destruct (rstrip_split s) as (w & E & _).
  destruct (rstrip s) as [|c u]; [exact I|]. rewrite E in H. exact H.
Qed.

(** What [strip] returns: the text between a blank prefix and a blank
    suffix, itself without white space at either end. *)
Lemma strip_spec s :
  exists w1 w2, s = w1 ++ strip s ++ w2 /\ blank w1 /\ blank w2 /\
                stops isspace (strip s) /\ stops isspace (rev (strip s)).
Proof.
  destruct (lstrip_split s) as (w1 & E1 & H1).
  destruct (rstrip_split (lstrip s)) as (w2 & E2 & H2).
  exists w1, w2. unfold strip. repeat split; try assumption.
  - now rewrite <- E2.
  - apply rstrip_stops, lstrip_stops.
  - unfold rstrip. rewrite rev_involutive. apply lstrip_stops.
Qed.

Lemma strip_idem s : strip (strip s) = strip s.
Proof.
  destruct (strip_spec s) as (_ & _ & _ & _ & _ & Hl & Hr).
  unfold strip at 1. rewrite (lstrip_fix _ Hl). unfold rstrip.
  rewrite (lstrip_fix _ Hr). apply rev_involutive.
Qed.

Lemma field_stripped b k : strip (field b k) = field b k.
Proof.
  unfold field. destruct (re_search _ b); [apply strip_idem | reflexivity].
Qed.

Lemma upto_all sep s : ~ In sep s -> upto sep s = s.
Proof.
  induction s as [|c s IH]; intros H; cbn; [reflexivity|].
  destruct (Z.eqb_spec c sep) as [->|N]; [exfalso; apply H; now left|].
  rewrite IH; [reflexivity | intros Hin; apply H; now right].
Qed.

Lemma upto_app sep pre post : ~ In sep pre -> upto sep (pre ++ sep :: post) = pre.
Proof.
  induction pre as [|c pre IH]; intros H; cbn.
  - now rewrite Z.eqb_refl.
  - destruct (Z.eqb_spec c sep) as [->|N]; [exfalso; apply H; now left|].
    rewrite IH; [reflexivity | intros Hin; apply H; now right].
Qed.

Lemma str_split_head sep s : exists l, str_split sep s = upto sep s :: l.
Proof.
  induction s as [|c s (l & E)]; cbn; [now exists []|].
  destruct (c =? sep); [eauto|]. rewrite E. eauto.
Qed.

Lemma str_split_app sep pre post :
  ~ In sep pre ->
  str_split sep (pre ++ sep :: post) = pre :: str_split sep post.
Proof.
  induction pre as [|c pre IH]; intros H; cbn.
  - now rewrite Z.eqb_refl.
  - destruct (Z.eqb_spec c sep) as [->|N]; [exfalso; apply H; now left|].
    rewrite IH; [reflexivity | intros Hin; apply H; now right].
Qed.

Lemma str_find_app c pre s :
  ~ In c pre ->
  str_find c (pre ++ s) =
  if str_find c s <? 0 then -1 else Z.of_nat (List.length pre) + str_find c s.
Proof.
  induction pre as [|x pre IH]; intros H.
  - cbn. destruct (Z.ltb_spec (str_find c s) 0); [|reflexivity].
    assert (forall t, -1 <= str_find c t) as L.
    { induction t as [|y t IHt]; cbn; [lia|].
      destruct (y =? c); [lia|]. destruct (str_find c t <? 0); lia. }
    specialize (L s). lia.
  - cbn [app str_find]. destruct (Z.eqb_spec x c) as [->|N];
      [exfalso; apply H; now left|].
    rewrite IH by (intros Hin; apply H; now right). cbn zeta.
    destruct (Z.ltb_spec (str_find c s) 0) as [L|L]; [reflexivity|].
    cbn [List.length].
    destruct (Z.ltb_spec (Z.of_nat (List.length pre) + str_find c s) 0); lia.
Qed.

Lemma str_find_here c s : str_find c (c :: s) = 0.
Proof. cbn. now rewrite Z.eqb_refl. Qed.

Lemma str_rfind_none c s : ~ In c s -> str_rfind c s = -1.
Proof.
  induction s as [|x s IH]; intros H; cbn; [reflexivity|].
  rewrite IH by (intros Hin; apply H; now right). cbn.
  destruct (Z.eqb_spec x c) as [->|N]; [exfalso; apply H; now left | reflexivity].
Qed.

Lemma str_rfind_app c pre post :
  ~ In c post ->
  str_rfind c (pre ++ c :: post) = Z.of_nat (List.length pre).
Proof.
  intros H. induction pre as [|x pre IH].
  - cbn. rewrite (str_rfind_none c post H). cbn. now rewrite Z.eqb_refl.
  - cbn [app str_rfind List.length]. rewrite IH. cbn zeta.
    destruct (Z.leb_spec 0 (Z.of_nat (List.length pre))); lia.
Qed.

Lemma slice_middle (pre mid post : pystr) :
  slice (pre ++ mid ++ post)
        (Z.of_nat (List.length pre))
        (Z.of_nat (List.length pre) + Z.of_nat (List.length mid)) = mid.
Proof.
  unfold slice. rewrite !length_app.
  set (a := List.length pre). set (m := List.length mid).
  set (q := List.length post).
  destruct (Z.ltb_spec (Z.of_nat a) 0); [lia|].
  destruct (Z.ltb_spec (Z.of_nat a + Z.of_nat m) 0); [lia|].
  rewrite !Z.min_l by lia.
  replace (Z.of_nat a + Z.of_nat m - Z.of_nat a) with (Z.of_nat m) by lia.
  rewrite !Nat2Z.id. subst a m.
  rewrite skipn_app, skipn_all, Nat.sub_diag. cbn [skipn app].
  rewrite firstn_app, firstn_all, Nat.sub_diag. cbn. apply app_nil_r.
Qed.

(** ** Angel and demon *)

Lemma angel_demon_absent ad : ~ In ARROW ad -> angel_demon ad = ([], []).
Proof.
  intros H. unfold angel_demon. apply chr_in_false in H. now rewrite H.
Qed.

Lemma angel_demon_split pre post :
  ~ In ARROW pre ->
  angel_demon (pre ++ ARROW :: post) = (strip pre, strip (upto ARROW post)).
Proof.
  intros H. unfold angel_demon.
  replace (chr_in ARROW (pre ++ ARROW :: post)) with true
    by (symmetry; apply chr_in_iff, in_elt).
  rewrite (str_split_app ARROW pre post H).
  destruct (str_split_head ARROW post) as (l & ->). reflexivity.
Qed.

(** ** Crystal and chemistry *)

Lemma crystal_of_upto cl : crystal_of cl = strip (upto 40 cl).
Proof.
  unfold crystal_of. destruct cl as [|c cl]; [reflexivity|]. cbn [truthy].
  now destruct (str_split_head 40 (c :: cl)) as (l & ->).
Qed.

Lemma chem_of_group pre mid post :
  ~ In 40 pre -> ~ In 41 post ->
  chem_of (pre ++ 40 :: mid ++ 41 :: post) = strip mid.
Proof.
  intros Hpre Hpost.
  assert (Hf : str_find 40 (pre ++ 40 :: mid ++ 41 :: post)
               = Z.of_nat (List.length pre)).
  { rewrite (str_find_app 40 pre _ Hpre), str_find_here, Z.ltb_irrefl. lia. }
  assert (Hr : str_rfind 41 (pre ++ 40 :: mid ++ 41 :: post)
               = Z.of_nat (List.length pre) + 1 + Z.of_nat (List.length mid)).
  { replace (pre ++ 40 :: mid ++ 41 :: post)
      with ((pre ++ 40 :: mid) ++ 41 :: post) by (now rewrite <- app_assoc).
    rewrite (str_rfind_app 41 _ post Hpost), length_app. cbn [List.length]. lia. }
  assert (Hs : slice (pre ++ 40 :: mid ++ 41 :: post)
                     (Z.of_nat (List.length pre) + 1)
                     (Z.of_nat (List.length pre) + 1 + Z.of_nat (List.length mid))
               = mid).
  { replace (pre ++ 40 :: mid ++ 41 :: post)
      with ((pre ++ [40]) ++ mid ++ 41 :: post) by (now rewrite <- app_assoc).
    replace (Z.of_nat (List.length pre) + 1)
      with (Z.of_nat (List.length (pre ++ [40])))
      by (rewrite length_app; cbn; lia).
    apply slice_middle. }
  unfold chem_of. rewrite Hf, Hr, Hs.
  replace (truthy _) with true by (now destruct pre).
  replace (chr_in 40 _) with true by (symmetry; apply chr_in_iff, in_elt).
  replace (chr_in 41 _) with true
    by (symmetry; apply chr_in_iff; rewrite app_comm_cons, app_assoc;
        apply in_elt).
  cbn [andb].
  destruct (Z.ltb_spec (Z.of_nat (List.length pre) + 1)
              (Z.of_nat (List.length pre) + 1 + Z.of_nat (List.length mid)));
    [reflexivity|].
  destruct mid; [reflexivity | cbn [List.length] in *; lia].
Qed.

Lemma chem_of_missing cl : ~ In 40 cl \/ ~ In 41 cl -> chem_of cl = [].
Proof.
  intros H. unfold chem_of.
  destruct H as [H|H]; apply chr_in_false in H; rewrite H;
    now rewrite ?andb_false_r.
Qed.

Lemma str_find_found c s : In c s -> 0 <= str_find c s.
Proof.
  induction s as [|x s IH]; intros H; [destruct H|]. cbn.
  destruct (Z.eqb_spec x c) as [->|N]; [lia|].
  destruct H as [H|H]; [congruence|]. specialize (IH H).
  destruct (Z.ltb_spec (str_find c s) 0); lia.
Qed.

Lemma chem_of_reversed pre post :
  ~ In 40 pre -> ~ In 41 post -> chem_of (pre ++ 41 :: post) = [].
Proof.
  intros Hpre Hpost. destruct (chr_in 40 post) eqn:E.
  - apply chr_in_iff, str_find_found in E. unfold chem_of.
    destruct (truthy _ && chr_in 40 _ && chr_in 41 _); [|reflexivity].
    rewrite (str_rfind_app 41 pre post Hpost), (str_find_app 40 pre _ Hpre).
    cbn [str_find]. change (41 =? 40) with false. cbn match. cbn zeta.
    destruct (Z.ltb_spec (str_find 40 post) 0); [lia|].
    destruct (Z.ltb_spec (str_find 40 post + 1) 0); [lia|].
    destruct (Z.ltb_spec (Z.of_nat (List.length pre) + (str_find 40 post + 1) + 1)
                         (Z.of_nat (List.length pre))); [lia | reflexivity].
  - apply chem_of_missing. left. apply chr_in_false in E.
    rewrite in_app_iff. intros [H|[H|H]]; [auto | discriminate | auto].
Qed.

(** ** Block splitter *)

Lemma match_at_splitter c :
  match_at splitter_re c =
  if split_point (rest c) then Some (advance c NL (tl (rest c))) else None.
Proof.
  unfold match_at, splitter_re. cbn [exec]. unfold split_point.
  destruct (rest c) as [|a [|b [|d [|w t]]]]; cbn [tl rest advance exec];
    try reflexivity;
    destruct (Z.eqb_spec a NL) as [->|]; cbn [andb]; try reflexivity;
    destruct (Z.eqb_spec b 35) as [->|]; cbn [andb]; try reflexivity;
    destruct (Z.eqb_spec d 35) as [->|]; cbn [andb]; try reflexivity.
  now destruct (isspace w).
Qed.

Lemma split_scan_segments : forall s prev seg,
  split_scan splitter_re prev s O seg = segments s seg.
Proof.
  induction s as [|x t IH]; intros prev seg; [reflexivity|].
  cbn [split_scan segments]. rewrite match_at_splitter. cbn [start_at rest].
  destruct (split_point (x :: t)); [|apply IH].
  cbn [advance rest tl List.length].
  replace (S (List.length t) - List.length t)%nat with 1%nat by lia.
  now rewrite IH.
Qed.

Lemma re_split_segments md : re_split splitter_re md = segments md [].
Proof. apply split_scan_segments. Qed.

Lemma join_nl_cons x g l : join_nl ((x :: g) :: l) = x :: join_nl (g :: l).
Proof. cbn [join_nl]. now destruct l. Qed.

Lemma segments_cut : forall s seg,
  exists g l,
    segments s seg = (rev seg ++ g) :: l /\
    join_nl (g :: l) = s /\
    (forall u v, g = u ++ v -> v <> [] ->
                 split_point (join_nl (v :: l)) = false) /\
    (l <> [] -> split_point (NL :: join_nl l) = true) /\
    well_cut l.
Proof.
  induction s as [|x t IH]; intros seg.
  - exists [], []. cbn [segments]. rewrite app_nil_r. repeat split; try easy.
    intros u v E Hv. destruct u, v; try discriminate. congruence.
  - cbn [segments]. destruct (split_point (x :: t)) eqn:Hx.
    + destruct (IH []) as (g1 & l1 & E & J & A & B & C). cbn [rev app] in E.
      assert (x = NL) as ->.
      { unfold split_point in Hx. destruct t as [|b [|d [|w t]]]; try discriminate.
        destruct (Z.eqb_spec x NL); [assumption | discriminate]. }
      exists [], (g1 :: l1). rewrite app_nil_r, E. repeat split.
      * cbn [join_nl app]. cbn [join_nl] in J. now rewrite J.
      * intros u v E' Hv. destruct u, v; try discriminate. congruence.
      * intros _. cbn [join_nl] in J. cbn [join_nl]. now rewrite J.
      * exact A.
      * exact B.
      * exact C.
    + destruct (IH (x :: seg)) as (g1 & l1 & E & J & A & B & C).
      exists (x :: g1), l1. repeat split.
      * rewrite E. cbn [rev]. now rewrite <- app_assoc.
      * now rewrite join_nl_cons, J.
      * intros u v E' Hv. destruct u as [|y u].
        -- cbn [app] in E'. subst v. now rewrite join_nl_cons, J.
        -- injection E' as _ E'. now apply (A u v).
      * exact B.
      * exact C.
Qed.

(** A segment that follows a split starts with the two number signs. *)
Lemma split_point_heading g l :
  split_point (NL :: join_nl (g :: l)) = true -> exists t, g = 35 :: 35 :: t.
Proof.
  unfold split_point. destruct g as [|a [|b g]].
  - cbn [join_nl]. destruct l as [|g' l]; [discriminate|].
    cbn [app]. change (NL =? 35) with false.
    destruct (join_nl (g' :: l)) as [|? [|? ?]]; cbn;
      rewrite ?andb_false_r; discriminate.
  - cbn [join_nl]. destruct l as [|g' l]; [discriminate|].
    cbn [app]. change (NL =? 35) with false.
    destruct (join_nl (g' :: l)) as [|? ?]; cbn;
      rewrite ?andb_false_r; discriminate.
  - rewrite !join_nl_cons.
    destruct (join_nl (g :: l)); [discriminate|].
    destruct (Z.eqb_spec a 35) as [->|]; [|rewrite andb_false_r; discriminate].
    destruct (Z.eqb_spec b 35) as [->|]; [|rewrite andb_false_r; discriminate].
    intros _. now exists g.
Qed.

Lemma well_cut_headings : forall l g,
  well_cut (g :: l) -> Forall (fun g' => exists t, g' = 35 :: 35 :: t) l.
Proof.
  induction l as [|g' l IH]; intros g (_ & B & C); [constructor|].
  constructor.
  - apply (split_point_heading g' l), B. discriminate.
  - apply (IH g'), C.
Qed.

(** ** The frequency of a record *)

Lemma map_freq_default ray :
  Forall (fun kw => ~ substring kw (lower (or_empty ray))) ray_keywords ->
  map_freq ray = 432.
Proof.
  unfold ray_keywords. intros H.
  repeat match goal with
         | H : Forall _ (_ :: _) |- _ =>
             let N := fresh "N" in
             inversion H as [|? ? N ?]; clear H; subst;
             rewrite <- str_in_iff in N; apply not_true_is_false in N
         end.
  unfold map_freq. cbn [existsb].
  repeat match goal with N : str_in _ _ = false |- _ => rewrite N; clear N end.
  reflexivity.
Qed.

Lemma freq_of_none tech ray :
  freq_of tech ray = None <->
  exists m, re_search solfeggio_re tech = Some m /\
            float_literal (group m) = false.
Proof.
  unfold freq_of. destruct (re_search solfeggio_re tech) as [m|] eqn:E.
  - destruct (solfeggio_capture tech m E) as [_ Hall].
    rewrite (float_of_str_none _ Hall). split.
    + intros H. now exists m.
    + intros (m' & Hm & H). now injection Hm as ->.
  - split; [discriminate | intros (m & Hm & _); discriminate].
Qed.

(** C2: in every appended record [freq] is a float.  It is the float of
    the number captured by the first match of the case-sensitive marker
    pattern in [Technical], whatever the ray is: for a text in which
    [Solfeggio], optional white space, an equals sign, optional white space
    and a run of digits and dots first occur, the float of that run.  A
    [Technical] value without the word [Solfeggio] has no marker, and
    without a marker [freq] is [float(map_freq(ray))], which is 432.0 when
    the ray is empty or holds no keyword. *)
Theorem freq_from_marker_or_ray b r :
  assemble b = Appended r ->
  let tech := field b (py "Technical") in
  let ray := field b (py "Ray") in
  (forall m, re_search solfeggio_re tech = Some m ->
             float_of_str (group m) = Some (c_freq r)) /\
  (forall pre ws1 ws2 num post,
      tech = pre ++ py "Solfeggio" ++ ws1 ++ 61 :: ws2 ++ num ++ post ->
      ~ In 83 pre -> blank ws1 -> blank ws2 -> num <> [] ->
      Forall (fun y => digit_or_dot y = true) num ->
      stops isspace num -> stops digit_or_dot post ->
      float_of_str num = Some (c_freq r)) /\
  (~ substring (py "Solfeggio") tech -> re_search solfeggio_re tech = None) /\
  (re_search solfeggio_re tech = None ->
   c_freq r = float_of_int (map_freq (Some ray)) /\
   (ray = [] -> c_freq r = float_of_int 432) /\
   (Forall (fun kw => ~ substring kw (lower ray)) ray_keywords ->
    c_freq r = float_of_int 432)).
Proof.
  intros H. cbv zeta.
  apply assemble_appended in H as (_ & _ & _ & Hf & _).
  unfold freq_of in Hf. split; [|split; [|split]].
  - intros m Hm. now rewrite Hm in Hf.
  - intros pre ws1 ws2 num post E Hpre H1 H2 Hne Hnum Hsp Hpost.
    destruct (solfeggio_value pre ws1 ws2 num post Hpre H1 H2 Hne Hnum Hsp Hpost)
      as (m & Hm & Hg).
    rewrite E, Hm, Hg in Hf. exact Hf.
  - apply solfeggio_absent.
  - intros N. rewrite N in Hf. injection Hf as <-. split; [reflexivity|]. split.
    + now intros ->.
    + intros K.
      rewrite (map_freq_default (Some (field b (py "Ray")))); [reflexivity|].
      now rewrite or_empty_some.
Qed.

(** ** The gate *)

(** C1 (amended): a block of the input with an empty [App Pulls] value is
    skipped without an error; it contributes a record exactly when the value
    is not empty and [float] accepts the number of its Solfeggio marker, if
    it has one; and the list of a run that ends without an error holds the
    records of the blocks that have the value, one each, in their order. *)
Theorem app_pulls_gate (md : pystr) :
  (forall b, In b (blocks md) ->
             field b (py "App Pulls") = [] -> assemble b = Skipped) /\
  (forall b, In b (blocks md) ->
             (exists c, assemble b = Appended c) <->
             field b (py "App Pulls") <> [] /\
             freq_of (field b (py "Technical")) (field b (py "Ray")) <> None) /\
  (forall cards, compile md = Some cards ->
                 Forall2 (fun b c => assemble b = Appended c)
                         (List.filter has_app_pulls (blocks md)) cards).
Proof.
  split; [|split].
  - intros b Hb H. now apply (block_skipped md b).
  - intros b Hb. rewrite assemble_appended_iff. split.
    + now intros (_ & H1 & H2).
    + intros (H1 & H2). repeat split; try assumption.
      destruct (block_shape md b Hb) as [t ->]. now apply block_heading.
  - intros cards H. unfold compile in H.
    apply (card_loop_some md) in H as (new & -> & Hnew); [exact Hnew | auto].
Qed.

(** ** Errors *)

(** C8 (amended): the loop body raises on a block exactly when the block has
    a heading and an [App Pulls] value and its [Technical] value holds a
    Solfeggio marker whose run of digits and dots is no float literal (no
    digit, or more than one dot); the run ends in that error exactly when
    some block
    raises.  Nothing else fails: a key without a match gives the empty
    string, the empty string gives the empty list, and without a marker the
    empty ray gives 432. *)
Theorem value_error_from_marker_only :
  (forall b,
      assemble b = ValueError <->
      re_search heading_re b <> None /\
      field b (py "App Pulls") <> [] /\
      exists m, re_search solfeggio_re (field b (py "Technical")) = Some m /\
                float_literal (group m) = false) /\
  (forall md,
      compile md = None <->
      exists b, In b (blocks md) /\ assemble b = ValueError) /\
  (forall b k, re_search (field_re k) b = None -> field b k = []) /\
  parse_list (Some []) = [] /\
  parse_list None = [] /\
  (forall tech, re_search solfeggio_re tech = None ->
                freq_of tech [] = Some (float_of_int 432)).
Proof.
  split; [|split; [|split; [|split; [|split]]]]; try reflexivity.
  - intros b. rewrite assemble_raised, freq_of_none. reflexivity.
  - intros md. apply card_loop_none.
  - apply field_missing.
  - intros tech H. unfold freq_of. now rewrite H.
Qed.

(** ** Angel and demon of a record *)

(** C5 (amended): without the arrow in the [Angel/Demon] value both entries
    are empty; with it, [angel] is the trimmed text before the first arrow
    and [demon] the trimmed text between the first arrow and the next one,
    or the end of the value when no other arrow follows, so that [demon] is
    all the trimmed text after the arrow when there is one arrow only, and
    empty when nothing follows it. *)
Theorem angel_demon_fields b r :
  assemble b = Appended r ->
  let ad := field b (py "Angel/Demon") in
  (~ In ARROW ad -> c_angel r = [] /\ c_demon r = []) /\
  (forall pre post,
      ad = pre ++ ARROW :: post -> ~ In ARROW pre ->
      c_angel r = strip pre /\ c_demon r = strip (upto ARROW post)) /\
  (forall pre post,
      ad = pre ++ ARROW :: post -> ~ In ARROW pre -> ~ In ARROW post ->
      c_angel r = strip pre /\ c_demon r = strip post) /\
  (forall pre, ad = pre ++ [ARROW] -> ~ In ARROW pre -> c_demon r = []).
Proof.
  intros H. cbv zeta.
  apply assemble_appended in H as (_ & _ & _ & _ & _ & _ & _ & _ & _ & _ & H & _).
  assert (Split : forall pre post,
             field b (py "Angel/Demon") = pre ++ ARROW :: post ->
             ~ In ARROW pre ->
             c_angel r = strip pre /\ c_demon r = strip (upto ARROW post)).
  { intros pre post E Hpre. rewrite E, (angel_demon_split pre post Hpre) in H.
    now injection H as -> ->. }
  split; [|split; [|split]].
  - intros N. rewrite (angel_demon_absent _ N) in H. now injection H.
  - exact Split.
  - intros pre post E Hpre Hpost. destruct (Split pre post E Hpre) as [-> ->].
    now rewrite upto_all.
  - intros pre E Hpre. now destruct (Split pre [] E Hpre) as [_ ->].
Qed.

(** ** Crystal and chemistry of a record *)

(** C6 (amended): [crystal] is always the trimmed text of the [Crystal]
    value before its first opening parenthesis, and the whole value when it
    has none; [chemistry] is the trimmed text between the first opening and
    the last closing parenthesis when the latter comes after the former, and
    empty when either is missing or the last closing one comes first. *)
Theorem crystal_fields b r :
  assemble b = Appended r ->
  let cl := field b (py "Crystal") in
  c_crystal r = strip (upto 40 cl) /\
  (~ In 40 cl -> c_crystal r = cl) /\
  (forall pre mid post,
      cl = pre ++ 40 :: mid ++ 41 :: post -> ~ In 40 pre -> ~ In 41 post ->
      c_crystal r = strip pre /\ c_chemistry r = strip mid) /\
  (~ In 40 cl \/ ~ In 41 cl -> c_chemistry r = []) /\
  (forall pre post,
      cl = pre ++ 41 :: post -> ~ In 40 pre -> ~ In 41 post ->
      c_chemistry r = []).
Proof.
  intros H. cbv zeta.
  apply assemble_appended in H
    as (_ & _ & _ & _ & _ & _ & _ & _ & _ & _ & _ & Hc & Hm).
  rewrite crystal_of_upto in Hc. split; [|split; [|split; [|split]]].
  - exact Hc.
  - intros N. rewrite Hc, (upto_all 40 _ N). apply field_stripped.
  - intros pre mid post E Hpre Hpost. split.
    + rewrite Hc, E, upto_app; auto.
    + rewrite Hm, E. now apply chem_of_group.
  - intros N. rewrite Hm. now apply chem_of_missing.
  - intros pre post E Hpre Hpost. rewrite Hm, E. now apply chem_of_reversed.
Qed.

(** ** The segments of a text *)

(** C9 (amended): the splitter cuts the text at exactly the line breaks that
    are followed by [##] and a white-space code point of any kind, and drops
    each such line break: the segments joined by line breaks give the text
    back, no position inside a segment is such a split point, every line
    break between two segments is one, and so every segment after the first
    starts with [##].  The blocks are the segments that start with [##] and
    a space, in their order; the other segments are discarded with all their
    text. *)
Theorem splitter_cuts (md : pystr) :
  let segs := re_split splitter_re md in
  segs <> [] /\
  join_nl segs = md /\
  well_cut segs /\
  Forall (fun g => exists t, g = py "##" ++ t) (tl segs) /\
  blocks md = List.filter (fun g => startswith g (py "## ")) segs /\
  (forall b, In b (blocks md) -> In b segs /\ exists t, b = py "## " ++ t).
Proof.
  cbv zeta. rewrite re_split_segments.
  destruct (segments_cut md []) as (g & l & E & J & A & B & C).
  cbn [rev app] in E. rewrite E.
  split; [|split; [|split; [|split; [|split]]]].
  - discriminate.
  - exact J.
  - cbn [well_cut]. auto.
  - cbn [tl]. apply (well_cut_headings l g). cbn [well_cut]. auto.
  - unfold blocks. now rewrite re_split_segments, E.
  - intros b Hb. split.
    + unfold blocks in Hb. rewrite re_split_segments, E in Hb.
      now apply filter_In in Hb.
    + destruct (block_shape md b Hb) as [t ->]. now exists t.
Qed.

(** ** Reading past the line of the key *)

Lemma strip_nonempty line :
  line <> [] -> stops isspace line -> strip line <> [].
Proof.
  intros Hne Hs. unfold strip. rewrite (lstrip_fix line Hs).
  destruct (rstrip_split line) as (w & E & Hw).
  destruct (rstrip line); [|discriminate].
  cbn [app] in E. subst w. destruct line as [|c line]; [congruence|].
  inversion Hw; subst. cbn in Hs. congruence.
Qed.

(** C10: at the first place of a block where a hyphen, optional white space,
    the key and a colon occur, when only white space stands between the
    colon and the line break, [field] returns the trimmed text of the next
    line that is not blank, and not the empty string. *)
Theorem field_reads_next_line pre sp k ws ws' line tail :
  no_earlier_key k pre (45 :: sp ++ k ++ 58 :: ws ++ NL :: ws' ++ line ++ tail) ->
  blank sp ->
  stops isspace k ->
  blank ws ->
  blank ws' ->
  line <> [] ->
  stops isspace line ->
  Forall (fun y => not_nl y = true) line ->
  stops not_nl tail ->
  field (pre ++ 45 :: sp ++ k ++ 58 :: ws ++ NL :: ws' ++ line ++ tail) k
  = strip line
  /\ strip line <> [].
Proof.
  intros Hpre Hsp Hk Hws Hws' Hne Hline Hnl Htail. split.
  - replace (ws ++ NL :: ws' ++ line ++ tail)
      with ((ws ++ NL :: ws') ++ line ++ tail) in *
      by (now rewrite <- app_assoc).
    apply field_value; try assumption.
    apply Forall_app. split; [exact Hws | now constructor].
  - now apply strip_nonempty.
Qed.

(** ** List normaliser *)

Lemma parse_list_unfold v :
  parse_list (Some v) =
  List.filter truthy (List.map strip (str_split 44 (str_replace 59 44 v))).
Proof. unfold parse_list. now destruct v. Qed.

Lemma str_split_pieces sep : forall s p,
  In p (str_split sep s) -> ~ In sep p /\ (forall x, In x p -> In x s).
Proof.
  induction s as [|c s IH]; intros p Hp; cbn [str_split] in Hp.
  - destruct Hp as [<-|[]]. split; [intros [] | intros x []].
  - destruct (Z.eqb_spec c sep) as [->|N].
    + destruct Hp as [<-|Hp]; [split; [intros [] | intros x []]|].
      destruct (IH p Hp) as [H1 H2]. split; [exact H1|].
      intros x Hx. right. now apply H2.
    + destruct (str_split sep s) as [|h r] eqn:E.
      * destruct Hp as [<-|[]]. split.
        -- intros [H|[]]. congruence.
        -- intros x [<-|[]]. now left.
      * destruct Hp as [<-|Hp].
        -- destruct (IH h (or_introl eq_refl)) as [H1 H2]. split.
           ++ intros [H|H]; [congruence | contradiction].
           ++ intros x [<-|Hx]; [now left | right; now apply H2].
        -- destruct (IH p (or_intror Hp)) as [H1 H2]. split; [exact H1|].
           intros x Hx. right. now apply H2.
Qed.

Lemma str_split_sep sep a b :
  str_split sep (a ++ sep :: b) = str_split sep a ++ str_split sep b.
Proof.
  induction a as [|c a IH]; cbn [app str_split].
  - now rewrite Z.eqb_refl.
  - destruct (c =? sep); [now rewrite IH|]. rewrite IH.
    destruct (str_split_head sep a) as (l & ->). reflexivity.
Qed.

Lemma str_split_whole sep s : ~ In sep s -> str_split sep s = [s].
Proof.
  induction s as [|c s IH]; intros H; cbn [str_split]; [reflexivity|].
  destruct (Z.eqb_spec c sep) as [->|N]; [exfalso; apply H; now left|].
  rewrite IH; [reflexivity | intros Hin; apply H; now right].
Qed.

Lemma str_replace_gone a b s : a <> b -> ~ In a (str_replace a b s).
Proof.
  intros N. unfold str_replace. rewrite in_map_iff. intros (x & E & _).
  destruct (Z.eqb_spec x a); congruence.
Qed.

Lemma str_replace_same a b s : ~ In a s -> str_replace a b s = s.
Proof.
  unfold str_replace.
  induction s as [|c s IH]; intros H; cbn [List.map]; [reflexivity|].
  destruct (Z.eqb_spec c a) as [->|N]; [exfalso; apply H; now left|].
  rewrite IH; [reflexivity | intros Hin; apply H; now right].
Qed.

Lemma strip_part s x : In x (strip s) -> In x s.
Proof.
  destruct (strip_spec s) as (w1 & w2 & E & _). intros H. rewrite E.
  rewrite !in_app_iff. auto.
Qed.

(** X1: every token [parse_list] returns is not empty, has no white space
    at either end and holds neither a comma nor a semicolon. *)
Theorem parse_list_tokens (value : option pystr) :
  Forall (fun tok => tok <> [] /\ trimmed tok /\ ~ In 44 tok /\ ~ In 59 tok)
         (parse_list value).
Proof.
  destruct value as [v|]; [|constructor]. rewrite parse_list_unfold.
  apply Forall_forall. intros tok H. apply filter_In in H as [H Ht].
  apply in_map_iff in H as (p & <- & Hp).
  destruct (str_split_pieces 44 _ p Hp) as [H1 H2].
  split; [now apply truthy_iff|]. split; [apply strip_idem|]. split.
  - intros H. apply H1. now apply strip_part.
  - intros H. apply strip_part, H2 in H. revert H. now apply str_replace_gone.
Qed.

(** X2: [parse_list] treats the comma and the semicolon alike and splits at
    each of them: the tokens of a text with a separator in it are the tokens
    of what stands before the separator followed by the tokens of what
    stands after it. *)
Theorem parse_list_separator (a b : pystr) :
  parse_list (Some (a ++ 44 :: b)) = parse_list (Some a) ++ parse_list (Some b)
  /\ parse_list (Some (a ++ 59 :: b)) = parse_list (Some a) ++ parse_list (Some b).
Proof.
  rewrite !parse_list_unfold. unfold str_replace. rewrite !map_app. cbn [List.map].
  change (59 =? 59) with true. change (44 =? 59) with false. cbn match.
  fold (str_replace 59 44 a). fold (str_replace 59 44 b).
  now rewrite str_split_sep, map_app, filter_app.
Qed.

(** X3: a text without comma and semicolon gives one token, its trimmed
    text, and none when it is blank. *)
Theorem parse_list_single (s : pystr) :
  ~ In 44 s -> ~ In 59 s ->
  parse_list (Some s) = if truthy (strip s) then [strip s] else [].
Proof.
  intros H1 H2. rewrite parse_list_unfold, (str_replace_same 59 44 s H2).
  now rewrite (str_split_whole 44 s H1).
Qed.

(** ** Lists written out and read again *)

Lemma parse_list_cut c (a b : pystr) :
  c = 44 \/ c = 59 ->
  parse_list (Some (a ++ c :: b)) = parse_list (Some a) ++ parse_list (Some b).
Proof.
  intros Hc. rewrite !parse_list_unfold. unfold str_replace.
  rewrite !map_app. cbn [List.map].
  assert (E : (if c =? 59 then 44 else c) = 44) by (destruct Hc; now subst).
  rewrite E. fold (str_replace 59 44 a). fold (str_replace 59 44 b).
  now rewrite str_split_sep, map_app, filter_app.
Qed.

Lemma parse_list_token tok : token tok -> parse_list (Some tok) = [tok].
Proof.
  intros (Hne & Ht & H1 & H2).
  rewrite parse_list_unfold, (str_replace_same 59 44 tok H2).
  rewrite (str_split_whole 44 tok H1). cbn [List.map List.filter].
  rewrite Ht. now destruct tok.
Qed.

(** X4: [parse_list] reads back what was written with either separator:
    for every list of tokens (texts that are not empty, are trimmed and hold
    no comma and no semicolon) the list parsed from the tokens joined by
    commas, or by semicolons, is that list.  So every such list is a result
    of [parse_list], and a result parses to itself. *)
Theorem parse_list_round_trip (l : list pystr) :
  Forall token l ->
  parse_list (Some (join_sep 44 l)) = l /\
  parse_list (Some (join_sep 59 l)) = l.
Proof.
  assert (G : forall c, c = 44 \/ c = 59 -> Forall token l ->
                        parse_list (Some (join_sep c l)) = l).
  { intros c Hc. induction l as [|tok l IH]; intros H; [reflexivity|].
    inversion H as [|? ? Htok Hl]; subst. cbn [join_sep].
    destruct l as [|tok' l]; [now apply parse_list_token|].
    rewrite (parse_list_cut c _ _ Hc), (parse_list_token tok Htok).
    cbn [app]. f_equal. now apply IH. }
  intros H. split; apply G; auto.
Qed.

(** ** The id of a record *)

Lemma split_run (p : Z -> bool) : forall s : pystr,
  exists run t, s = run ++ t /\ Forall (fun y => p y = true) run /\ stops p t.
Proof.
  induction s as [|c s (run & t & -> & Hr & Ht)].
  - exists [], []. now repeat split.
  - destruct (p c) eqn:Hc.
    + exists (c :: run), t. repeat split; [now constructor | exact Ht].
    + exists [], (c :: run ++ t). repeat split; [constructor | exact Hc].
Qed.

(** [p+] reads the longest run of the class. *)
Lemma match_at_plus p c run t :
  rest c = run ++ t -> run <> [] ->
  Forall (fun y => p y = true) run -> stops p t ->
  match_at (Plus true (Cls p)) c = Some (moved c run t).
Proof.
  intros E Hne Hr Ht. destruct run as [|y w]; [congruence|].
  inversion Hr as [|? ? Hy Hw]; subst. unfold match_at, Plus.
  rewrite exec_Cat, (exec_Cls_hit p y c (w ++ t)) by assumption.
  now apply (greedy_run p w (advance c y (w ++ t)) t).
Qed.

Lemma match_at_plus_none p c : stops p (rest c) -> match_at (Plus true (Cls p)) c = None.
Proof.
  unfold match_at, Plus. rewrite exec_Cat. cbn [exec].
  destruct (rest c) as [|y t]; [reflexivity|]. cbn [stops]. now intros ->.
Qed.

(** After a match the scan passes over the code points it has consumed. *)
Lemma sub_scan_skip r repl w : forall prev t,
  sub_scan r repl prev (w ++ t) (List.length w) =
  sub_scan r repl (fold_left (fun _ y => Some y) w prev) t O.
Proof.
  induction w as [|y w IH]; intros prev t; [now destruct t|].
  cbn [app List.length sub_scan fold_left]. apply IH.
Qed.

Lemma collapse_run : forall run t,
  Forall (fun y => negb (isword y) = true) run ->
  stops (fun y => negb (isword y)) t ->
  collapse true (run ++ t) = collapse false t.
Proof.
  induction run as [|y w IH]; intros t Hr Ht.
  - cbn [app]. destruct t as [|c t]; [reflexivity|]. cbn in Ht. cbn [collapse].
    apply negb_false_iff in Ht. now rewrite Ht.
  - inversion Hr as [|? ? Hy Hw]; subst. cbn [app collapse].
    apply negb_true_iff in Hy. rewrite Hy. now apply IH.
Qed.

(** The substitution of the id is [collapse]. *)
Lemma re_sub_collapse_le : forall n s prev,
  (List.length s <= n)%nat ->
  sub_scan nonword_re (py "_") prev s O = collapse false s.
Proof.
  induction n as [|n IH]; intros s prev Hn.
  - destruct s; [reflexivity | cbn in Hn; lia].
  - destruct s as [|c t]; [reflexivity|]. cbn [List.length] in Hn.
    destruct (isword c) eqn:Hc.
    + cbn [sub_scan collapse]. unfold nonword_re.
      rewrite match_at_plus_none by (cbn; now rewrite Hc). rewrite Hc.
      f_equal. apply IH. lia.
    + destruct (split_run (fun y => negb (isword y)) t) as (w & t' & -> & Hw & Ht).
      assert (Hr : Forall (fun y => negb (isword y) = true) (c :: w))
        by (constructor; [now rewrite Hc | exact Hw]).
      cbn [sub_scan]. unfold nonword_re.
      rewrite (match_at_plus _ _ (c :: w) t') by (try easy; reflexivity).
      cbn [moved rest List.length].
      replace (S (List.length (w ++ t')) - List.length t')%nat
        with (S (List.length w)) by (rewrite length_app; lia).
      rewrite sub_scan_skip, IH by (rewrite length_app in Hn; lia).
      cbn [collapse]. rewrite Hc. change (py "_") with [95]. cbn [app].
      f_equal. symmetry. now apply collapse_run.
Qed.

Lemma re_sub_collapse name :
  re_sub nonword_re (py "_") name = collapse false name.
Proof. apply (re_sub_collapse_le (List.length name)). lia. Qed.

Lemma collapse_word : forall s fl, Forall (fun c => isword c = true) (collapse fl s).
Proof.
  induction s as [|c s IH]; intros fl; cbn [collapse]; [constructor|].
  destruct (isword c) eqn:Hc; [now constructor|].
  destruct fl; [apply IH | constructor; [reflexivity | apply IH]].
Qed.

Lemma collapse_fixed : forall s fl,
  Forall (fun c => isword c = true) s -> collapse fl s = s.
Proof.
  induction s as [|c s IH]; intros fl H; [reflexivity|].
  inversion H as [|? ? Hc Hs]; subst. cbn [collapse]. rewrite Hc.
  now rewrite IH.
Qed.

Lemma collapse_length : forall s fl, (List.length (collapse fl s) <= List.length s)%nat.
Proof.
  induction s as [|c s IH]; intros fl; cbn [collapse List.length]; [lia|].
  destruct (isword c); [specialize (IH false); cbn; lia|].
  destruct fl; [specialize (IH true); lia | specialize (IH true); cbn; lia].
Qed.

Lemma collapse_ascii : forall s fl, is_ascii s = true -> is_ascii (collapse fl s) = true.
Proof.
  induction s as [|c s IH]; intros fl H; [reflexivity|].
  cbn [is_ascii forallb] in H. apply andb_true_iff in H as [Hc Hs].
  cbn [collapse]. destruct (isword c).
  - cbn [is_ascii forallb]. rewrite Hc. now apply IH.
  - destruct fl; [now apply IH|]. cbn [is_ascii forallb].
    change (95 <? 128) with true. now apply IH.
Qed.

Ltac z_props :=
  rewrite ?orb_true_iff, ?andb_true_iff, ?orb_false_iff, ?andb_false_iff,
    ?Z.leb_le, ?Z.ltb_lt, ?Z.eqb_eq, ?Z.leb_gt, ?Z.ltb_ge, ?Z.eqb_neq in *.

Lemma ascii_lower_ascii c : (c <? 128) = true -> (ascii_lower c <? 128) = true.
Proof.
  unfold ascii_lower. intros H.
  destruct ((65 <=? c) && (c <=? 90)) eqn:E; z_props; lia.
Qed.

Lemma id_char_lower c :
  (c <? 128) = true -> isword c = true -> id_char (ascii_lower c) = true.
Proof.
  unfold isword, id_char. intros H1 H2. rewrite H1 in H2. unfold ascii_lower.
  destruct ((65 <=? c) && (c <=? 90)) eqn:E; z_props; lia.
Qed.

Lemma isword_lower c : (c <? 128) = true -> isword (ascii_lower c) = isword c.
Proof.
  intros H. unfold isword. rewrite H, (ascii_lower_ascii c H).
  apply eq_true_iff_eq. unfold ascii_lower.
  destruct ((65 <=? c) && (c <=? 90)) eqn:E; z_props; lia.
Qed.

Lemma id_char_word c :
  id_char c = true -> isword c = true /\ ascii_lower c = c /\ (c <? 128) = true.
Proof.
  unfold id_char. intros H.
  assert (A : (c <? 128) = true) by (z_props; lia).
  unfold isword, ascii_lower. rewrite A.
  destruct ((65 <=? c) && (c <=? 90)) eqn:E; z_props; lia.
Qed.

Lemma lower_ascii s : is_ascii s = true -> lower s = List.map ascii_lower s.
Proof. unfold lower. now intros ->. Qed.

(** The id made of a pure ASCII name. *)
Lemma id_ascii name :
  is_ascii name = true ->
  lower (re_sub nonword_re (py "_") name)
  = List.map ascii_lower (collapse false name).
Proof.
  intros H. rewrite re_sub_collapse. apply lower_ascii. now apply collapse_ascii.
Qed.

Lemma id_chars name :
  is_ascii name = true ->
  Forall (fun c => id_char c = true) (lower (re_sub nonword_re (py "_") name)).
Proof.
  intros H. rewrite (id_ascii name H). apply Forall_map.
  pose proof (collapse_word name false) as W.
  pose proof (collapse_ascii name false H) as A.
  induction (collapse false name) as [|c s IH]; [constructor|].
  inversion W; subst. cbn [is_ascii forallb] in A.
  apply andb_true_iff in A as [Ac As]. constructor; [|now apply IH].
  now apply id_char_lower.
Qed.

Lemma id_fixed s :
  Forall (fun c => id_char c = true) s ->
  lower (re_sub nonword_re (py "_") s) = s.
Proof.
  intros H.
  assert (W : Forall (fun c => isword c = true) s).
  { eapply Forall_impl; [|exact H]. intros c Hc. now apply id_char_word. }
  assert (A : is_ascii s = true).
  { unfold is_ascii. apply forallb_forall. intros c Hc.
    rewrite Forall_forall in H. now apply id_char_word, H. }
  rewrite (id_ascii s A), (collapse_fixed s false W).
  induction H as [|c s Hc Hs IH]; [reflexivity|]. cbn [List.map].
  cbn [is_ascii forallb] in A. apply andb_true_iff in A as [_ A].
  inversion W; subst. rewrite IH by assumption.
  f_equal. now apply id_char_word.
Qed.

Lemma collapse_same_but_case : forall s t fl,
  is_ascii s = true -> is_ascii t = true ->
  List.map ascii_lower s = List.map ascii_lower t ->
  List.map ascii_lower (collapse fl s) = List.map ascii_lower (collapse fl t).
Proof.
  induction s as [|c s IH]; intros [|d t] fl Hs Ht E; try discriminate;
    [reflexivity|].
  cbn [List.map] in E. injection E as Ec E.
  cbn [is_ascii forallb] in Hs, Ht.
  apply andb_true_iff in Hs as [Hc Hs]. apply andb_true_iff in Ht as [Hd Ht].
  assert (W : isword c = isword d)
    by (now rewrite <- (isword_lower c Hc), <- (isword_lower d Hd), Ec).
  cbn [collapse]. rewrite <- W. destruct (isword c).
  - cbn [List.map]. rewrite Ec. f_equal. now apply IH.
  - destruct fl; [now apply IH|]. cbn [List.map]. f_equal. now apply IH.
Qed.

(** X5: the substitution that makes the id keeps the word characters of a
    name and puts one underscore for every run of other code points; its
    result holds word characters only, is no longer than the name, and is
    the name itself when the name has no other code point; the id of a pure
    ASCII name is made of lower-case ASCII letters, ASCII digits and
    underscores. *)
Theorem id_collapses_runs (name : pystr) :
  re_sub nonword_re (py "_") name = collapse false name /\
  Forall (fun c => isword c = true) (re_sub nonword_re (py "_") name) /\
  (List.length (re_sub nonword_re (py "_") name) <= List.length name)%nat /\
  (Forall (fun c => isword c = true) name ->
   re_sub nonword_re (py "_") name = name) /\
  (is_ascii name = true ->
   Forall (fun c => id_char c = true) (lower (re_sub nonword_re (py "_") name))).
Proof.
  split; [apply re_sub_collapse|]. rewrite re_sub_collapse.
  split; [apply collapse_word|]. split; [apply collapse_length|]. split.
  - now apply collapse_fixed.
  - intros A. rewrite <- re_sub_collapse. now apply id_chars.
Qed.

(** X6: making an id is idempotent on ASCII names: the id of an id is the
    id, and a text of lower-case letters, digits and underscores is its own
    id. *)
Theorem id_idempotent (name : pystr) :
  is_ascii name = true ->
  lower (re_sub nonword_re (py "_")
                (lower (re_sub nonword_re (py "_") name)))
  = lower (re_sub nonword_re (py "_") name)
  /\ (Forall (fun c => id_char c = true) name ->
      lower (re_sub nonword_re (py "_") name) = name).
Proof.
  intros A. split; [|apply id_fixed]. apply id_fixed. now apply id_chars.
Qed.

(** X7: the id does not tell names apart that differ in the case of their
    ASCII letters only, so ids need not be unique. *)
Theorem id_ignores_case (n t : pystr) :
  same_but_case n t ->
  lower (re_sub nonword_re (py "_") n) = lower (re_sub nonword_re (py "_") t).
Proof.
  intros (Hn & Ht & E). rewrite (id_ascii n Hn), (id_ascii t Ht).
  now apply collapse_same_but_case.
Qed.

(** ** What the field extractor can return *)

(** A successful search has matched at some position of the text. *)
Lemma search_from_where r : forall s prev m,
  search_from r prev s = Some m ->
  exists pre post p, s = pre ++ post /\ match_at r (start_at p post) = Some m.
Proof.
  induction s as [|y s IH]; intros prev m H; cbn [search_from] in H.
  - destruct (match_at r (start_at prev [])) eqn:E; [|discriminate].
    injection H as ->. now exists [], [], prev.
  - destruct (match_at r (start_at prev (y :: s))) eqn:E.
    + injection H as ->. now exists [], (y :: s), prev.
    + apply IH in H as (pre & post & p & -> & H).
      now exists (y :: pre), post, p.
Qed.

Lemma grp_plus_none p c :
  stops p (rest c) -> match_at (Grp (Plus true (Cls p))) c = None.
Proof.
  unfold match_at, Plus. rewrite exec_Grp, exec_Cat. cbn [exec].
  destruct (rest c) as [|y t]; [reflexivity|]. cbn [stops]. now intros ->.
Qed.

(** The text the pattern of [field] has matched, and what it has captured:
    the rest of the line on which the white space after the colon ends. *)
Lemma field_re_inv k p s m :
  match_at (field_re k) (start_at p s) = Some m ->
  exists sp gap line tail,
    s = 45 :: sp ++ k ++ 58 :: gap ++ line ++ tail /\ blank sp /\ blank gap /\
    line <> [] /\ Forall (fun y => not_nl y = true) line /\ stops not_nl tail /\
    group m = line.
Proof.
  unfold match_at, field_re. intros M.
  rewrite exec_Cat in M. apply exec_Chr_inv in M as (t0 & E0 & M).
  cbn [start_at rest] in E0. subst s. rewrite exec_Cat in M.
  apply (rep_cls_sound true isspace t0) in M as (sp & t1 & -> & Hsp & M);
    [|reflexivity].
  destruct (exec_lit_inv k _ _ _ _ M) as (t2 & E2).
  rewrite (exec_lit k _ _ t2 _ E2), exec_Cat in M.
  apply exec_Chr_inv in M as (t3 & E3 & M). cbn [moved rest] in E2, E3.
  subst t1 t2. rewrite exec_Cat in M.
  apply (rep_cls_sound true isspace t3) in M as (gap & t4 & -> & Hgap & M);
    [|reflexivity].
  destruct (split_run not_nl t4) as (line & tail & -> & Hl & Ht).
  exists sp, gap, line, tail.
  match type of M with
  | exec ?r _ ?c _ = _ => change (match_at r c = Some m) in M
  end.
  destruct line as [|y line].
  - rewrite grp_plus_none in M by exact Ht. discriminate.
  - rewrite (grp_plus_hit not_nl _ (y :: line) tail) in M
      by (try reflexivity; try assumption; discriminate).
    injection M as <-. rewrite group_capture by reflexivity.
    repeat split; try assumption. discriminate.
Qed.

(** A value of [field] that is not empty is the trimmed capture of a match
    somewhere in the block. *)
Lemma field_found b k :
  field b k <> [] ->
  exists m pre post p,
    b = pre ++ post /\ match_at (field_re k) (start_at p post) = Some m /\
    field b k = strip (group m).
Proof.
  unfold field, re_search. intros H.
  destruct (search_from (field_re k) None b) as [m|] eqn:E; [|congruence].
  apply search_from_where in E as (pre & post & p & -> & M).
  now exists m, pre, post, p.
Qed.

Lemma substring_refl (s : pystr) : substring s s.
Proof. exists [], []. now rewrite app_nil_r. Qed.

Lemma substring_trans (x y z : pystr) : substring x y -> substring y z -> substring x z.
Proof.
  intros (a & b & ->) (c & d & ->). exists (c ++ a), (b ++ d).
  now rewrite <- !app_assoc.
Qed.

Lemma substring_in (x s : pystr) c : substring x s -> In c x -> In c s.
Proof. intros (a & b & ->) H. apply in_or_app. right. apply in_or_app. now left. Qed.

Lemma substring_nil (s : pystr) : substring [] s.
Proof. now exists [], s. Qed.

Lemma strip_substring s : substring (strip s) s.
Proof. destruct (strip_spec s) as (w1 & w2 & E & _). now exists w1, w2. Qed.

Lemma not_nl_line (line : pystr) :
  Forall (fun y => not_nl y = true) line -> ~ In NL line.
Proof.
  rewrite Forall_forall. intros H Hin. apply H in Hin.
  unfold not_nl in Hin. now rewrite Z.eqb_refl in Hin.
Qed.

(** X8: a value that [field] returns was read behind the key: somewhere in
    the block a hyphen, optional white space, the key, a colon and optional
    white space are followed by a non-empty line rest, and the value is that
    line rest, trimmed. *)
Theorem field_sound (b k : pystr) :
  field b k <> [] ->
  exists pre sp gap line tail,
    b = pre ++ 45 :: sp ++ k ++ 58 :: gap ++ line ++ tail /\
    blank sp /\ blank gap /\ line <> [] /\
    Forall (fun y => not_nl y = true) line /\ stops not_nl tail /\
    field b k = strip line.
Proof.
  intros H. destruct (field_found b k H) as (m & pre & post & p & -> & M & E).
  apply field_re_inv in M
    as (sp & gap & line & tail & -> & H1 & H2 & H3 & H4 & H5 & G).
  rewrite G in E. now exists pre, sp, gap, line, tail.
Qed.

(** X9: a block in which the key is nowhere followed by a colon gives the
    empty string for that key. *)
Theorem field_absent (b k : pystr) :
  str_in (k ++ [58]) b = false -> field b k = [].
Proof.
  intros H. destruct (field b k) as [|c v] eqn:E; [reflexivity|]. exfalso.
  destruct (field_found b k) as (m & pre & post & p & -> & M & _);
    [rewrite E; discriminate|].
  apply field_re_inv in M as (sp & gap & line & tail & -> & _).
  assert (S : substring (k ++ [58]) (pre ++ 45 :: sp ++ k ++ 58 :: gap ++ line ++ tail)).
  { exists (pre ++ 45 :: sp), (gap ++ line ++ tail).
    rewrite <- !app_assoc. cbn [app]. reflexivity. }
  apply str_in_iff in S. congruence.
Qed.

(** X10: the value of a field that stands on the line of its key.  At the
    first place of a block where a hyphen, optional white space, the key and
    a colon occur, when text follows on the same line, [field] returns that
    text up to the end of the line, trimmed, whatever the block holds after
    the line (a later line with the same key is not read). *)
Theorem field_reads_value pre sp k gap line tail :
  no_earlier_key k pre (45 :: sp ++ k ++ 58 :: gap ++ line ++ tail) ->
  blank sp ->
  stops isspace k ->
  blank gap ->
  Forall (fun y => not_nl y = true) gap ->
  line <> [] ->
  stops isspace line ->
  Forall (fun y => not_nl y = true) line ->
  stops not_nl tail ->
  field (pre ++ 45 :: sp ++ k ++ 58 :: gap ++ line ++ tail) k = strip line
  /\ strip line <> []
  /\ substring (strip line) (gap ++ line).
Proof.
  intros Hpre Hsp Hk Hgap _ Hne Hline Hnl Htail.
  split; [now apply field_value|]. split; [now apply strip_nonempty|].
  apply (substring_trans _ line); [apply strip_substring|].
  exists gap, []. now rewrite app_nil_r.
Qed.

(** ** The name of a record *)

Lemma exec_Cls_inv {A : Type} p c (k : cursor -> option A) a :
  exec (Cls p) A c k = Some a ->
  exists y t, rest c = y :: t /\ p y = true /\ k (advance c y t) = Some a.
Proof.
  cbn [exec]. destruct (rest c) as [|y t]; [discriminate|].
  destruct (p y) eqn:Hy; [|discriminate]. intros H. now exists y, t.
Qed.

Lemma exec_Eol_inv {A : Type} c (k : cursor -> option A) a :
  exec Eol A c k = Some a -> stops not_nl (rest c) /\ k c = Some a.
Proof.
  cbn [exec]. unfold at_eol, not_nl.
  destruct (rest c) as [|y t]; [now split|].
  cbn [stops]. destruct (y =? NL); [now split | discriminate].
Qed.

(** The part of the heading's pattern behind [##\s+]: what [(.+?)\s*$] has
    matched and captured. *)
Lemma heading_rest_inv c m :
  exec (Cat (Grp (Plus false (Cls not_nl))) (Cat (Rep true (Cls isspace)) Eol))
       cursor c Some = Some m ->
  exists g w t,
    rest c = g ++ w ++ t /\ g <> [] /\ Forall (fun y => not_nl y = true) g /\
    blank w /\ stops not_nl t /\ group m = g.
Proof.
  unfold Plus. rewrite exec_Cat, exec_Grp, exec_Cat. intros M.
  apply exec_Cls_inv in M as (y & s & E & Hy & M).
  apply (rep_cls_sound false not_nl s) in M as (w1 & t1 & -> & Hw1 & M);
    [|reflexivity].
  rewrite exec_Cat in M.
  apply (rep_cls_sound true isspace t1) in M as (w & t & -> & Hw & M);
    [|reflexivity].
  apply exec_Eol_inv in M as (Ht & M). injection M as <-.
  exists (y :: w1), w, t. cbn [moved rest] in Ht.
  repeat split; try assumption; try discriminate; [now constructor|].
  unfold group. cbn [moved capture group1 rest advance]. rewrite E.
  change (y :: w1 ++ w ++ t) with ((y :: w1) ++ w ++ t).
  now rewrite firstn_consumed.
Qed.

(** It matches wherever a line break or the end follows a line rest. *)
Lemma heading_rest_found c y line tail :
  rest c = y :: line ++ tail -> not_nl y = true ->
  Forall (fun y => not_nl y = true) line -> stops not_nl tail ->
  exec (Cat (Grp (Plus false (Cls not_nl))) (Cat (Rep true (Cls isspace)) Eol))
       cursor c Some <> None.
Proof.
  intros E Hy Hl Ht. unfold Plus. rewrite exec_Cat, exec_Grp, exec_Cat.
  rewrite (exec_Cls_hit not_nl y c (line ++ tail)) by assumption.
  apply (lazy_reach not_nl line _ tail); [reflexivity | exact Hl |].
  intros c' Hc'. rewrite exec_Cat. apply exec_rep_stop.
  rewrite exec_Eol_hit; [discriminate|].
  unfold at_eol. cbn [capture rest]. rewrite Hc'.
  destruct tail as [|z tail]; [reflexivity|].
  cbn in Ht. unfold not_nl in Ht. now destruct (z =? NL).
Qed.

Lemma blank_before_break : forall (x tail w t : pystr),
  x ++ tail = w ++ t -> Forall (fun y => not_nl y = true) x ->
  blank w -> stops not_nl t -> blank x.
Proof.
  induction x as [|c x IH]; intros tail w t E Hx Hw Ht; [constructor|].
  inversion Hx as [|? ? Hc Hx']; subst. destruct w as [|d w].
  - cbn [app] in E. subst t. cbn in Ht. congruence.
  - cbn [app] in E. injection E as <- E. inversion Hw as [|? ? Hd Hw']; subst.
    constructor; [exact Hd|]. exact (IH tail w t E Hx' Hw' Ht).
Qed.

(** A capture of [(.+?)\s*$] that starts on a line ends on it, with only
    white space behind it on that line. *)
Lemma capture_on_line : forall (title tail g w t : pystr),
  title ++ tail = g ++ w ++ t ->
  Forall (fun y => not_nl y = true) title -> stops not_nl tail ->
  Forall (fun y => not_nl y = true) g -> blank w -> stops not_nl t ->
  exists x, title = g ++ x /\ blank x.
Proof.
  induction title as [|c title IH]; intros tail g w t E Hti Hta Hg Hw Ht.
  - destruct g as [|y g]; [exists []; split; [reflexivity | constructor]|].
    cbn [app] in E. subst tail. inversion Hg; subst. cbn in Hta. congruence.
  - destruct g as [|y g].
    + exists (c :: title). split; [reflexivity|].
      exact (blank_before_break (c :: title) tail w t E Hti Hw Ht).
    + cbn [app] in E. injection E as <- E.
      inversion Hti; subst. inversion Hg; subst.
      destruct (IH tail g w t E) as (x & -> & Hx); try assumption.
      now exists x.
Qed.

Lemma lstrip_blank w : forall s, blank w -> lstrip (w ++ s) = lstrip s.
Proof.
  induction w as [|c w IH]; intros s H; [reflexivity|].
  inversion H as [|? ? Hc Hw]; subst. cbn [app lstrip]. rewrite Hc. now apply IH.
Qed.

Lemma rstrip_blank s x : blank x -> rstrip (s ++ x) = rstrip s.
Proof.
  intros H. unfold rstrip. rewrite rev_app_distr, lstrip_blank; [reflexivity|].
  now apply Forall_rev.
Qed.

Lemma strip_blank_end g x :
  g <> [] -> stops isspace g -> blank x -> strip (g ++ x) = strip g.
Proof.
  intros Hne Hg Hx. unfold strip.
  rewrite (lstrip_fix g Hg), lstrip_fix by (now destruct g).
  now apply rstrip_blank.
Qed.

(** The heading of a block whose title starts behind [##] and white space:
    the search of the loop matches at the start and captures the title up to
    its trailing white space. *)
Lemma heading_title ws title tail :
  ws <> [] -> blank ws -> title <> [] -> stops isspace title ->
  Forall (fun y => not_nl y = true) title -> stops not_nl tail ->
  exists m, re_search heading_re (35 :: 35 :: ws ++ title ++ tail) = Some m /\
            strip (group m) = strip title.
Proof.
  intros Hws Hb Hne Hst Hti Hta.
  destruct ws as [|y0 ws]; [congruence|]. inversion Hb as [|? ? Hy0 Hb']; subst.
  destruct title as [|y title]; [congruence|]. cbn [stops] in Hst.
  inversion Hti as [|? ? Hy Hti']; subst.
  set (K := fun c => exec (Cat (Grp (Plus false (Cls not_nl)))
                               (Cat (Rep true (Cls isspace)) Eol)) cursor c Some).
  set (c0 := advance (advance (advance (start_at None
               (35 :: 35 :: (y0 :: ws) ++ (y :: title) ++ tail)) 35
               (35 :: (y0 :: ws) ++ (y :: title) ++ tail)) 35
               ((y0 :: ws) ++ (y :: title) ++ tail)) y0
               (ws ++ (y :: title) ++ tail)).
  destruct (K (moved c0 ws ((y :: title) ++ tail))) as [m|] eqn:Hk.
  2:{ exfalso. revert Hk. apply (heading_rest_found _ y title tail);
        [reflexivity | exact Hy | exact Hti' | exact Hta]. }
  exists m. split.
  - unfold re_search. apply search_hit. unfold match_at, heading_re.
    rewrite exec_Cat, exec_Bol_hit by reflexivity.
    rewrite exec_Cat,
      (exec_Chr_hit 35 _ (35 :: (y0 :: ws) ++ (y :: title) ++ tail))
      by reflexivity.
    rewrite exec_Cat,
      (exec_Chr_hit 35 _ ((y0 :: ws) ++ (y :: title) ++ tail)) by reflexivity.
    unfold Plus at 1. rewrite !exec_Cat.
    rewrite (exec_Cls_hit isspace y0 _ (ws ++ (y :: title) ++ tail))
      by (try reflexivity; exact Hy0).
    apply (greedy_run isspace ws c0 ((y :: title) ++ tail));
      [reflexivity | exact Hb' | exact Hst | exact Hk].
  - apply heading_rest_inv in Hk as (g & w & t & E & Hg & Hgl & Hw & Ht & ->).
    cbn [moved rest] in E.
    destruct (capture_on_line (y :: title) tail g w t E) as (x & Ex & Hx);
      try assumption.
    rewrite Ex. symmetry. apply strip_blank_end; [exact Hg | | exact Hx].
    destruct g as [|z g]; [congruence|]. cbn [app] in Ex. injection Ex as <- _.
    exact Hst.
Qed.

(** X11: the name of a record.  In a block that starts with [##], white
    space and a title line that starts with another code point, the search
    for the heading succeeds at the start of the block and the name is the
    trimmed title, whatever follows the line; the suit and the id of the
    record are computed from it. *)
Theorem name_is_title (ws title tail : pystr) :
  ws <> [] -> blank ws -> title <> [] -> stops isspace title ->
  Forall (fun y => not_nl y = true) title -> stops not_nl tail ->
  (exists m, re_search heading_re (35 :: 35 :: ws ++ title ++ tail) = Some m /\
             strip (group m) = strip title) /\
  (forall r, assemble (35 :: 35 :: ws ++ title ++ tail) = Appended r ->
             c_name r = strip title /\ c_suit r = suit (strip title) /\
             c_id r = lower (collapse false (strip title))).
Proof.
  intros Hws Hb Hne Hst Hti Hta.
  destruct (heading_title ws title tail Hws Hb Hne Hst Hti Hta) as (m & Hm & Hg).
  split; [now exists m|]. intros r Hr.
  apply assemble_appended in Hr as (m' & Hm' & _ & _ & Hn & Hid & Hs & _).
  rewrite Hm in Hm'. injection Hm' as <-. rewrite Hg in Hn.
  rewrite Hs, Hid, Hn, re_sub_collapse. now repeat split.
Qed.

(** ** Where the text of a record comes from *)

Lemma assemble_copied b r :
  assemble b = Appended r ->
  c_letter r = field b (py "Letter") /\
  c_astrology r = field b (py "Astrology") /\
  c_deities r = field b (py "Deities") /\
  c_artifact r = field b (py "Artifact") /\
  c_pigment r = field b (py "Pigment") /\
  c_tara r = field b (py "Secret Tara") /\
  c_thought r = field b (py "Thought-form") /\
  c_hga_fragment r = field b (py "HGA Fragment") /\
  c_pattern_glyph r = field b (py "Pattern Glyph") /\
  c_psyche r = field b (py "Psyche") /\
  c_witchEyeOrders r = parse_list (Some (field b (py "Witch Eye Order"))) /\
  c_nonLivingLineages r = parse_list (Some (field b (py "Non-Living Lineage"))).
Proof.
  unfold assemble. destruct (re_search heading_re b) as [m|]; [|discriminate].
  destruct (field b (py "App Pulls")) eqn:E; cbn [truthy negb]; [discriminate|].
  destruct (angel_demon _) as [angel demon] eqn:Ead.
  destruct (freq_of _ _) as [freq|] eqn:Ef; [|discriminate].
  intros H. injection H as <-. cbn. repeat split; reflexivity.
Qed.

Lemma field_from_block b k : from_block b (field b k).
Proof.
  split; [apply field_stripped|].
  destruct (field b k) as [|c v] eqn:E;
    [split; [intros [] | apply substring_nil]|].
  destruct (field_found b k) as (m & pre & post & p & -> & M & Ev);
    [rewrite E; discriminate|].
  apply field_re_inv in M
    as (sp & gap & line & tail & -> & _ & _ & _ & Hl & _ & G).
  rewrite <- E, Ev, G. split.
  - intros Hin. apply (not_nl_line line Hl).
    exact (substring_in _ _ _ (strip_substring line) Hin).
  - apply (substring_trans _ line); [apply strip_substring|].
    exists (pre ++ 45 :: sp ++ k ++ 58 :: gap), tail.
    rewrite <- !app_assoc. cbn [app]. do 2 f_equal.
    rewrite <- !app_assoc. cbn [app]. reflexivity.
Qed.

(** X12: whatever the block and the key, the value of [field] has no white
    space at either end, holds no line break and is a contiguous part of
    the block. *)
Theorem field_single_line (b k : pystr) :
  trimmed (field b k) /\ ~ In NL (field b k) /\ substring (field b k) b.
Proof. exact (field_from_block b k). Qed.

Lemma from_block_nil b : from_block b [].
Proof. split; [reflexivity|]. split; [intros [] | apply substring_nil]. Qed.

(** A trimmed part of a piece of the block is a piece of the block. *)
Lemma from_block_strip b v x :
  from_block b v -> substring x v -> from_block b (strip x).
Proof.
  intros (_ & Hnl & Hb) Hx. split; [apply strip_idem|]. split.
  - intros Hin. apply Hnl. apply (substring_in x v); [exact Hx|].
    exact (substring_in _ _ _ (strip_substring x) Hin).
  - apply (substring_trans _ v); [|exact Hb].
    apply (substring_trans _ x); [apply strip_substring | exact Hx].
Qed.

Lemma substring_cons (x s : pystr) c : substring x s -> substring x (c :: s).
Proof. intros (a & b & ->). now exists (c :: a), b. Qed.

(** The pieces of a split are contiguous parts of the text, also after the
    replacement of other separators by [sep]. *)
Lemma split_map_parts sep (f : Z -> Z) :
  (forall c, f c <> sep -> f c = c) ->
  forall s, exists h r,
    str_split sep (List.map f s) = h :: r /\
    (exists post, s = h ++ post) /\ (forall p, In p r -> substring p s).
Proof.
  intros Hf. induction s as [|c s (h & r & E & (post & Eh) & Hr)].
  - exists [], []. split; [reflexivity|]. split; [now exists [] | intros p []].
  - cbn [List.map str_split]. destruct (Z.eqb_spec (f c) sep) as [Ec|Nc].
    + exists [], (str_split sep (List.map f s)).
      split; [reflexivity|]. split; [now exists (c :: s)|].
      intros p Hp. apply substring_cons. rewrite E in Hp.
      destruct Hp as [<-|Hp]; [|now apply Hr].
      exists [], post. exact Eh.
    + rewrite E. exists (f c :: h), r. split; [reflexivity|]. split.
      * exists post. rewrite (Hf c Nc). cbn [app]. now rewrite <- Eh.
      * intros p Hp. apply substring_cons. now apply Hr.
Qed.

Lemma split_parts sep s p : In p (str_split sep s) -> substring p s.
Proof.
  destruct (split_map_parts sep (fun c => c) (fun c _ => eq_refl) s)
    as (h & r & E & (post & Eh) & Hr).
  rewrite map_id in E. rewrite E. intros [<-|Hp]; [|now apply Hr].
  exists [], post. exact Eh.
Qed.

Lemma split_replaced_parts v p :
  In p (str_split 44 (str_replace 59 44 v)) -> substring p v.
Proof.
  unfold str_replace.
  destruct (split_map_parts 44 (fun c => if c =? 59 then 44 else c)) with (s := v)
    as (h & r & E & (post & Eh) & Hr).
  { intros c. destruct (c =? 59); congruence. }
  rewrite E. intros [<-|Hp]; [|now apply Hr]. exists [], post. exact Eh.
Qed.

Lemma slice_substring s a b : substring (slice s a b) s.
Proof.
  unfold slice. cbv zeta.
  match goal with |- substring (firstn ?n (skipn ?m s)) s =>
    exists (firstn m s), (skipn n (skipn m s)) end.
  now rewrite firstn_skipn, firstn_skipn.
Qed.

Lemma angel_demon_from_block b ad :
  from_block b ad ->
  from_block b (fst (angel_demon ad)) /\ from_block b (snd (angel_demon ad)).
Proof.
  intros H. unfold angel_demon.
  destruct (chr_in ARROW ad); [|split; apply from_block_nil].
  pose proof (split_parts ARROW ad) as Hp.
  destruct (str_split ARROW ad) as [|p0 [|p1 l]]; cbn [List.map fst snd].
  - split; apply from_block_nil.
  - split; [|apply from_block_nil].
    apply (from_block_strip b ad); [exact H | apply Hp; now left].
  - split; cbn [List.length Nat.ltb Nat.leb nth].
    + apply (from_block_strip b ad); [exact H | apply Hp; now left].
    + apply (from_block_strip b ad); [exact H | apply Hp; right; now left].
Qed.

Lemma crystal_from_block b cl : from_block b cl -> from_block b (crystal_of cl).
Proof.
  intros H. unfold crystal_of. destruct (truthy cl); [|apply from_block_nil].
  apply (from_block_strip b cl); [exact H|].
  destruct (str_split_head 40 cl) as (l & E).
  apply (split_parts 40). rewrite E. now left.
Qed.

Lemma chem_from_block b cl : from_block b cl -> from_block b (chem_of cl).
Proof.
  intros H. unfold chem_of.
  destruct (truthy cl && chr_in 40 cl && chr_in 41 cl); [|apply from_block_nil].
  cbv zeta. destruct (_ <? _); [|apply from_block_nil].
  apply (from_block_strip b cl); [exact H | apply slice_substring].
Qed.

Lemma parse_list_from_block b v :
  from_block b v -> Forall (from_block b) (parse_list (Some v)).
Proof.
  intros H. unfold parse_list. destruct (negb (truthy v)); [constructor|].
  cbv zeta. apply Forall_forall. intros tok Htok.
  apply filter_In in Htok as [Htok _]. apply in_map_iff in Htok as (p & <- & Hp).
  apply (from_block_strip b v); [exact H | now apply split_replaced_parts].
Qed.

(** What the pattern of the heading has matched, wherever it matched. *)
Lemma heading_re_inv p s m :
  match_at heading_re (start_at p s) = Some m ->
  exists ws g w t,
    s = 35 :: 35 :: ws ++ g ++ w ++ t /\ ws <> [] /\ blank ws /\ g <> [] /\
    Forall (fun y => not_nl y = true) g /\ blank w /\ stops not_nl t /\
    group m = g.
Proof.
  unfold match_at, heading_re. intros M. rewrite exec_Cat in M.
  cbn [exec] in M. destruct (at_bol (start_at p s)); [|discriminate].
  change (exec (Cat (Chr 35) (Cat (Chr 35) (Cat (Plus true (Cls isspace))
            (Cat (Grp (Plus false (Cls not_nl)))
                 (Cat (Rep true (Cls isspace)) Eol))))) cursor (start_at p s) Some
          = Some m) in M.
  rewrite exec_Cat in M. apply exec_Chr_inv in M as (t0 & E0 & M).
  rewrite exec_Cat in M. apply exec_Chr_inv in M as (t1 & E1 & M).
  cbn [start_at advance rest] in E0, E1. subst s t0.
  unfold Plus at 1 in M. rewrite !exec_Cat in M.
  apply exec_Cls_inv in M as (y & t2 & E2 & Hy & M). cbn [advance rest] in E2.
  subst t1.
  apply (rep_cls_sound true isspace t2) in M as (ws & t3 & -> & Hws & M);
    [|reflexivity].
  apply heading_rest_inv in M as (g & w & t & E & Hg & Hgl & Hw & Ht & G).
  cbn [moved rest] in E. subst t3. exists (y :: ws), g, w, t.
  repeat split; try assumption; try discriminate. now constructor.
Qed.

Lemma name_from_block b m :
  re_search heading_re b = Some m -> from_block b (strip (group m)).
Proof.
  unfold re_search. intros H.
  apply search_from_where in H as (pre & post & p & -> & M).
  apply heading_re_inv in M as (ws & g & w & t & -> & _ & _ & _ & Hg & _ & _ & ->).
  split; [apply strip_idem|]. split.
  - intros Hin. apply (not_nl_line g Hg).
    exact (substring_in _ _ _ (strip_substring g) Hin).
  - apply (substring_trans _ g); [apply strip_substring|].
    exists (pre ++ 35 :: 35 :: ws), (w ++ t).
    rewrite <- !app_assoc. reflexivity.
Qed.

(** X13: every text of a record (all entries but the id, the suit and the
    frequency, the tokens of both lists included) has no white space at
    either end, holds no line break and is a contiguous part of the block
    the record was made from: the loop copies and cuts, it never puts text
    into a record that the block does not hold. *)
Theorem record_texts_from_block (b : pystr) (r : card) :
  assemble b = Appended r -> Forall (from_block b) (text_entries r).
Proof.
  intros H.
  destruct (assemble_appended b r H)
    as (m & Hm & _ & _ & Hn & _ & _ & Hap & Hray & Htech & Had & Hcr & Hch).
  destruct (assemble_copied b r H)
    as (H1 & H2 & H3 & H4 & H5 & H6 & H7 & H8 & H9 & H10 & H11 & H12).
  destruct (angel_demon_from_block b (field b (py "Angel/Demon")))
    as [Ha Hd]; [apply field_from_block|].
  rewrite <- Had in Ha, Hd. cbn [fst snd] in Ha, Hd.
  unfold text_entries. rewrite Hn, H1, H2, Hray, H3, Hcr, Hch, H4, H5, H6, H7,
    H8, H9, H10, Htech, Hap, H11, H12.
  apply Forall_app. split; [|apply Forall_app; split].
  - repeat (apply Forall_cons); try apply Forall_nil;
      try apply field_from_block; try assumption.
    + now apply name_from_block.
    + apply crystal_from_block, field_from_block.
    + apply chem_from_block, field_from_block.
  - apply parse_list_from_block, field_from_block.
  - apply parse_list_from_block, field_from_block.
Qed.

(** ** Documents and their blocks *)

Lemma endswith_iff s p : endswith s p = true <-> exists u, s = u ++ p.
Proof.
  unfold endswith. rewrite startswith_iff. split.
  - intros [t E]. exists (rev t).
    rewrite <- (rev_involutive s), E, rev_app_distr. now rewrite rev_involutive.
  - intros [u ->]. exists (rev u). apply rev_app_distr.
Qed.

(** A line break put behind a text makes no split point inside the text,
    unless the text ends with a line break and two number signs. *)
Lemma split_point_app x t md2 :
  (forall u, x :: t <> u ++ [NL; 35; 35]) ->
  split_point ((x :: t) ++ NL :: md2) = split_point (x :: t).
Proof.
  intros H. destruct t as [|b [|c [|w t]]]; cbn [app split_point].
  - destruct md2 as [|? [|? ?]]; try reflexivity.
    change (NL =? 35) with false. now rewrite andb_false_r.
  - destruct md2 as [|? ?]; [reflexivity|].
    change (NL =? 35) with false. now rewrite andb_false_r.
  - destruct (Z.eqb_spec x NL) as [->|]; [|reflexivity].
    destruct (Z.eqb_spec b 35) as [->|]; [|reflexivity].
    destruct (Z.eqb_spec c 35) as [->|]; [|reflexivity].
    exfalso. now apply (H []).
  - reflexivity.
Qed.

Lemma segments_app md2 :
  split_point (NL :: md2) = true ->
  forall md1 seg,
    (forall u, md1 <> u ++ [NL; 35; 35]) ->
    segments (md1 ++ NL :: md2) seg = segments md1 seg ++ segments md2 [].
Proof.
  intros H2. induction md1 as [|x t IH]; intros seg H1.
  - cbn [app]. transitivity (rev seg :: segments md2 []); [|reflexivity].
    destruct md2 as [|b [|c [|w md2]]]; try discriminate H2.
    cbn [segments]. now rewrite H2.
  - assert (Ht : forall u, t <> u ++ [NL; 35; 35])
      by (intros u ->; now apply (H1 (x :: u))).
    change (segments ((x :: t) ++ NL :: md2) seg)
      with (if split_point ((x :: t) ++ NL :: md2)
            then rev seg :: segments (t ++ NL :: md2) []
            else segments (t ++ NL :: md2) (x :: seg)).
    change (segments (x :: t) seg)
      with (if split_point (x :: t)
            then rev seg :: segments t [] else segments t (x :: seg)).
    rewrite (split_point_app x t md2 H1).
    destruct (split_point (x :: t)); rewrite IH by exact Ht; reflexivity.
Qed.

Lemma blocks_segments md :
  blocks md = List.filter (fun b => startswith b (py "## ")) (segments md []).
Proof. unfold blocks. now rewrite re_split_segments. Qed.

Lemma card_loop_acc : forall bs acc,
  card_loop bs acc = option_map (app acc) (card_loop bs []).
Proof.
  induction bs as [|b bs IH]; intros acc; cbn [card_loop].
  - cbn. now rewrite app_nil_r.
  - destruct (assemble b) as [|c|]; [apply IH | | reflexivity].
    rewrite (IH (acc ++ [c])), (IH ([] ++ [c])).
    destruct (card_loop bs []) as [l|]; [|reflexivity].
    cbn. now rewrite <- app_assoc.
Qed.

Lemma card_loop_app : forall bs1 bs2 acc,
  card_loop (bs1 ++ bs2) acc =
  match card_loop bs1 acc with
  | Some cards => card_loop bs2 cards
  | None => None
  end.
Proof.
  induction bs1 as [|b bs1 IH]; intros bs2 acc; cbn [app card_loop];
    [reflexivity|].
  destruct (assemble b); [apply IH | apply IH | reflexivity].
Qed.

(** X14: two documents put together.  When the second text starts with a
    heading mark ([##] and white space) and the first does not end with a
    line break and [##], the blocks of the two texts joined by a line break
    are the blocks of the first followed by those of the second, and the
    run on the joined text gives the records of the first followed by those
    of the second; it fails when one of the two runs fails. *)
Theorem compile_concat (md1 md2 : pystr) :
  split_point (NL :: md2) = true ->
  endswith md1 (NL :: py "##") = false ->
  blocks (md1 ++ NL :: md2) = blocks md1 ++ blocks md2 /\
  compile (md1 ++ NL :: md2) =
  match compile md1, compile md2 with
  | Some c1, Some c2 => Some (c1 ++ c2)
  | _, _ => None
  end.
Proof.
  intros H2 H1.
  assert (E : blocks (md1 ++ NL :: md2) = blocks md1 ++ blocks md2).
  { rewrite !blocks_segments, (segments_app md2 H2); [apply filter_app|].
    intros u ->. rewrite (proj2 (endswith_iff _ _)) in H1; [discriminate|].
    now exists u. }
  split; [exact E|]. unfold compile. rewrite E, card_loop_app.
  destruct (card_loop (blocks md1) []) as [c1|]; [|reflexivity].
  rewrite card_loop_acc. now destruct (card_loop (blocks md2) []).
Qed.

Lemma startswith_app_nl a t :
  startswith (a ++ NL :: t) (py "## ") = startswith a (py "## ").
Proof.
  destruct a as [|x [|y [|z a]]]; cbn [app startswith py]; cbn.
  - reflexivity.
  - now rewrite andb_false_r.
  - now rewrite !andb_false_r.
  - reflexivity.
Qed.

Lemma heading_is_split_point s :
  startswith s (NL :: py "## ") = true -> split_point s = true.
Proof. intros H. apply startswith_iff in H as [t ->]. reflexivity. Qed.

Lemma split_point_shape s :
  split_point s = true -> exists w t, s = NL :: 35 :: 35 :: w :: t.
Proof.
  destruct s as [|a [|b [|c [|w s]]]]; cbn [split_point]; try discriminate.
  destruct (Z.eqb_spec a NL) as [->|]; [|discriminate].
  destruct (Z.eqb_spec b 35) as [->|]; [|discriminate].
  destruct (Z.eqb_spec c 35) as [->|]; [|discriminate]. intros _. now exists w, s.
Qed.

(** The segments that start with [## ]: the one the scan is in, if its text
    does, and one for every line break that is followed by [## ]. *)
Lemma count_headed : forall s seg,
  List.length (List.filter (fun b => startswith b (py "## ")) (segments s seg))
  = ((if startswith (rev seg ++ s) (py "## ") then 1 else 0)
     + occurrences (NL :: py "## ") s)%nat.
Proof.
  induction s as [|x t IH]; intros seg.
  - cbn [segments List.filter occurrences]. rewrite app_nil_r.
    destruct (startswith (rev seg) (py "## ")); reflexivity.
  - change (segments (x :: t) seg)
      with (if split_point (x :: t)
            then rev seg :: segments t [] else segments t (x :: seg)).
    change (occurrences (NL :: py "## ") (x :: t))
      with ((if startswith (x :: t) (NL :: py "## ") then 1 else 0)
            + occurrences (NL :: py "## ") t)%nat.
    destruct (split_point (x :: t)) eqn:Hsp.
    + destruct (split_point_shape _ Hsp) as (w & t' & E).
      injection E as -> ->. cbn [List.filter]. rewrite startswith_app_nl.
      assert (Hs : startswith (NL :: 35 :: 35 :: w :: t') (NL :: py "## ")
                   = startswith (rev [] ++ 35 :: 35 :: w :: t') (py "## "))
        by reflexivity.
      rewrite Hs.
      destruct (startswith (rev seg) (py "## ")); cbn [List.length];
        rewrite IH; lia.
    + assert (Hs : startswith (x :: t) (NL :: py "## ") = false).
      { destruct (startswith (x :: t) (NL :: py "## ")) eqn:E; [|reflexivity].
        apply heading_is_split_point in E. congruence. }
      rewrite Hs, IH. cbn [rev]. now rewrite <- app_assoc.
Qed.

(** X15: the number of blocks of a text is the number of its lines that
    begin with [## ]: one if the text itself begins so, and one for every
    line break that is followed by [## ].  A text without such a line has
    no block and the run gives the empty list. *)
Theorem blocks_count (md : pystr) :
  List.length (blocks md)
  = ((if startswith md (py "## ") then 1 else 0)
     + occurrences (NL :: py "## ") md)%nat
  /\ (startswith md (py "## ") = false ->
      occurrences (NL :: py "## ") md = O -> compile md = Some []).
Proof.
  assert (E := count_headed md []). rewrite <- blocks_segments in E.
  cbn [rev app] in E. split; [exact E|]. intros H1 H2.
  rewrite H1, H2 in E. unfold compile.
  destruct (blocks md); [reflexivity | discriminate E].
Qed.

(** ** Names *)

Lemma collapse_nonempty s fl : s <> [] -> fl = false -> collapse fl s <> [].
Proof.
  destruct s as [|c s]; [congruence|]. intros _ ->. cbn [collapse].
  destruct (isword c); discriminate.
Qed.

(** X16: a record that was made from a block has a name: in a text that
    starts with [## ] and has an [App Pulls] value the search for the
    heading matches at the start, and the name, the trimmed first line with
    text behind the mark, is not empty; nor is the text its id is made
    from. *)
Theorem record_has_name (md b : pystr) (r : card) :
  In b (blocks md) -> assemble b = Appended r ->
  c_name r <> [] /\ re_sub nonword_re (py "_") (c_name r) <> [].
Proof.
  intros Hb Hr. destruct (block_shape md b Hb) as [t ->].
  apply assemble_appended in Hr as (m & Hm & Hap & _ & Hn & _).
  assert (Hx : exists x, In x t /\ isspace x = false).
  { apply field_needs_hyphen in Hap. exists 45. split; [|reflexivity].
    destruct Hap as [H|[H|[H|H]]]; try discriminate. exact H. }
  destruct (split_blank t Hx) as (w & y & t' & -> & Hw & Hy).
  destruct (split_line t') as (line & tail & -> & Hl & Ht).
  destruct (heading_title (32 :: w) (y :: line) tail) as (m' & Hm' & Hg);
    try assumption; try discriminate.
  { constructor; [reflexivity | exact Hw]. }
  { constructor; [now apply isspace_not_nl | exact Hl]. }
  cbn [app] in Hm'. rewrite Hm in Hm'. injection Hm' as <-.
  assert (N : c_name r <> []).
  { rewrite Hn, Hg. apply strip_nonempty; [discriminate | exact Hy]. }
  split; [exact N|]. rewrite re_sub_collapse. now apply collapse_nonempty.
Qed.

(** ** The sign of the frequency *)

Lemma scan_decimal_nonneg :
  (forall c d, uni_decimal ucd c = Some d -> 0 <= d) ->
  forall s dot digit m den q,
    0 <= m -> scan_decimal s dot digit m den = Some q -> (0 <= q)%Q.
Proof.
  intros Hd. induction s as [|c s IH]; intros dot digit m den q Hm H;
    cbn [scan_decimal] in H.
  - destruct digit; [|discriminate]. injection H as <-.
    assert (Hq : (Qred (m # den) == m # den)%Q) by apply Qred_correct.
    rewrite Hq. unfold Qle. cbn. lia.
  - destruct (c =? 46).
    + destruct dot; [discriminate|]. exact (IH _ _ _ _ _ Hm H).
    + destruct (decimal_value c) as [d|] eqn:E; [|discriminate].
      refine (IH _ _ _ _ _ _ H).
      assert (0 <= d); [|lia]. unfold decimal_value in E.
      destruct ((48 <=? c) && (c <=? 57)) eqn:E1.
      * injection E as <-. apply andb_true_iff in E1 as [E1 _].
        apply Z.leb_le in E1. lia.
      * destruct (c <? 128); [discriminate|]. exact (Hd c d E).
Qed.

Lemma map_freq_positive ray : 0 < map_freq ray.
Proof.
  unfold map_freq. cbv zeta.
  repeat match goal with
         | |- context [if ?x then _ else _] => destruct x
         end; lia.
Qed.

(** X17: the frequency of a record is never negative: it is the rounding of
    a rational number that is at least zero, whether it was read from the
    marker or mapped from the ray (the pattern of the marker captures no
    sign and no exponent).  The digit values of the interpreter's table are
    taken to be non-negative. *)
Theorem freq_not_negative (b : pystr) (r : card) :
  (forall c d, uni_decimal ucd c = Some d -> 0 <= d) ->
  assemble b = Appended r ->
  exists q : Q, (0 <= q)%Q /\ c_freq r = nearest q.
Proof.
  intros Hd Hr. apply assemble_appended in Hr as (_ & _ & _ & Hf & _).
  unfold freq_of in Hf.
  destruct (re_search solfeggio_re (field b (py "Technical"))) as [m|].
  - unfold float_of_str in Hf.
    destruct (scan_decimal (group m) false false 0 1) as [q|] eqn:E;
      [|discriminate].
    injection Hf as <-. exists q. split; [|reflexivity].
    apply (scan_decimal_nonneg Hd _ _ _ _ _ q (Z.le_refl 0) E).
  - injection Hf as <-. eexists. split; [|reflexivity].
    pose proof (map_freq_positive (Some (field b (py "Ray")))) as P.
    unfold Qle, inject_Z. cbn [Qnum Qden]. lia.
Qed.

End Registry.

(** * Worked inputs *)

(** The assertions of the test suite, evaluated on the model. *)

Example test_field_parses_value_and_missing :
  field key_block (py "Key") = py "Value with spaces" /\
  field key_block (py "Missing") = [].
Proof. split; vm_compute; reflexivity. Qed.

Example test_parse_list_various_inputs :
  parse_list (Some []) = [] /\
  parse_list None = [] /\
  parse_list (Some (py "a, b; c,, , d")) = [py "a"; py "b"; py "c"; py "d"] /\
  parse_list (Some (py " single ")) = [py "single"].
Proof. repeat split; vm_compute; reflexivity. Qed.

Example test_suit_identification_rules :
  List.map (suit ascii_only)
           [py "Knight of Wands"; py "Queen of Cups"; py "Queen of Coins";
            py "Blade Dancer"; py "Hero of Swords"; py "The Fool"]
  = [py "wands"; py "cups"; py "pentacles"; py "swords"; py "swords";
     py "majors"].
Proof. vm_compute. reflexivity. Qed.

Example test_map_freq_mappings_and_precedence :
  List.map (fun x => map_freq ascii_only (Some x))
           [py "violet"; py "indigo"; py "silver"; py "gold"; py "emerald";
            py "green"; py "aquamarine"; py "turquoise"; py "crimson";
            py "scarlet"; py "red"; py "emerald and silver"; py "unknown hue"]
  = [963; 852; 852; 528; 528; 528; 528; 528; 417; 285; 285; 852; 432].
Proof. vm_compute. reflexivity. Qed.

Example test_compile_freq_falls_back :
  option_map (List.map (fun c => (c_suit c, c_freq c)))
             (compile ascii_only exact coins_block)
  = Some [(py "pentacles", 285 # 1)].
Proof. vm_compute. reflexivity. Qed.

Example test_angel_demon_without_arrow :
  option_map (List.map (fun c => (c_suit c, c_angel c, c_demon c)))
             (compile ascii_only exact blade_block)
  = Some [(py "swords", [], [])].
Proof. vm_compute. reflexivity. Qed.

Example test_compile_writes_expected_json :
  option_map
    (List.map (fun c => [c_letter c; c_astrology c; c_angel c; c_demon c;
                         c_crystal c; c_chemistry c; c_artifact c; c_pigment c;
                         c_tara c; c_thought c; c_hga_fragment c;
                         c_pattern_glyph c; c_psyche c; c_ray c; c_appPulls c]))
    (compile ascii_only exact two_blocks)
  = Some [[py "Aleph"; py "Uranus"; py "Michael"; py "Belial"; py "Quartz";
           py "SiO2"; py "Wand"; py "White"; py "1"; py "None"; py "xyz";
           py "abc"; py "none"; py "Silver"; py "yes"]].
Proof. vm_compute. reflexivity. Qed.

Example two_blocks_compile :
  option_map (List.map (fun c => (c_id c, c_name c, c_suit c, c_freq c)))
             (compile ascii_only exact two_blocks)
  = Some [(py "the_fool", py "The Fool", py "majors", 528 # 1)].
Proof. vm_compute. reflexivity. Qed.

Example two_blocks_lists :
  option_map (List.map (fun c => (c_witchEyeOrders c, c_nonLivingLineages c)))
             (compile ascii_only exact two_blocks)
  = Some [([py "A"; py "B"; py "C"], [py "X"; py "Y"])].
Proof. vm_compute. reflexivity. Qed.

(** C1, the claim as stated fails: [dot_block] is a block of its own text
    and has the [App Pulls] value [yes], yet it contributes no record: the
    loop body raises on it and the run writes nothing.  So no equivalence
    between contributing a record and having the value holds for every
    block of every input. *)
Lemma app_pulls_gate_counterexample :
  In dot_block (blocks dot_block) /\
  field dot_block (py "App Pulls") = py "yes" /\
  assemble ascii_only exact dot_block = ValueError /\
  compile ascii_only exact dot_block = None /\
  ~ (forall md b, In b (blocks md) ->
                  (exists c, assemble ascii_only exact b = Appended c) <->
                  field b (py "App Pulls") <> []).
Proof.
  assert (B : In dot_block (blocks dot_block)) by (vm_compute; now left).
  assert (F : field dot_block (py "App Pulls") = py "yes")
    by (vm_compute; reflexivity).
  assert (R : assemble ascii_only exact dot_block = ValueError)
    by (vm_compute; reflexivity).
  split; [exact B|]. split; [exact F|]. split; [exact R|].
  split; [vm_compute; reflexivity|].
  intros H. destruct (proj2 (H dot_block dot_block B)) as [c Hc].
  - rewrite F. vm_compute. discriminate.
  - rewrite R in Hc. discriminate.
Qed.

(** C1, the amended claim at [two_blocks]: the run ends without an error
    and its list holds the record of the one block with an [App Pulls]
    value. *)
Lemma app_pulls_gate_witness :
  exists c, compile ascii_only exact two_blocks = Some [c] /\
            Forall2 (fun b c => assemble ascii_only exact b = Appended c)
                    (List.filter has_app_pulls (blocks two_blocks)) [c].
Proof.
  eexists. split; [vm_compute; reflexivity|].
  apply (proj2 (proj2 (app_pulls_gate ascii_only exact two_blocks))).
  vm_compute. reflexivity.
Defined.

(** C2 at [fool_block]: the marker [Solfeggio = 528] gives [freq] the
    float of [528], though the ray [Silver] maps to 852. *)
Lemma freq_from_marker_or_ray_witness :
  exists r, assemble ascii_only exact fool_block = Appended r /\
            float_of_str ascii_only exact (py "528") = Some (c_freq r) /\
            c_freq r = float_of_int exact 528 /\
            map_freq ascii_only (Some (c_ray r)) = 852.
Proof.
  eexists. split; [vm_compute; reflexivity|]. split; [|split].
  - refine (proj1 (proj2 (freq_from_marker_or_ray ascii_only exact fool_block _
                            ltac:(vm_compute; reflexivity)))
              (py "Info; ") [32] [32] (py "528") [] _ _ _ _ _ _ _ _);
      try (vm_compute; reflexivity); try discriminate;
      try (repeat constructor).
    vm_compute. intuition discriminate.
  - vm_compute. reflexivity.
  - vm_compute. reflexivity.
Defined.

(** C5, the claim as stated fails: the [Angel/Demon] value of
    [two_arrows_block] has two arrows; the text after the first one, trimmed,
    is [B], an arrow and [C], but [demon] is [B]. *)
Lemma angel_demon_fields_counterexample :
  exists r, assemble ascii_only exact two_arrows_block = Appended r /\
            field two_arrows_block (py "Angel/Demon") = two_arrows /\
            c_angel r = py "A" /\
            c_demon r = py "B" /\
            c_demon r <> strip (py " B " ++ ARROW :: py " C").
Proof.
  eexists. split; [vm_compute; reflexivity|].
  split; [vm_compute; reflexivity|]. split; [vm_compute; reflexivity|].
  split; [vm_compute; reflexivity|]. vm_compute. discriminate.
Qed.

(** C5, the amended claim at [fool_block]. *)
Lemma angel_demon_fields_witness :
  exists r, assemble ascii_only exact fool_block = Appended r /\
            c_angel r = strip (py "Michael ") /\
            c_demon r = strip (py " Belial").
Proof.
  eexists. split; [vm_compute; reflexivity|].
  refine (proj1 (proj2 (proj2 (angel_demon_fields ascii_only exact fool_block _
                                 ltac:(vm_compute; reflexivity))))
            (py "Michael ") (py " Belial") _ _ _).
  - vm_compute. reflexivity.
  - vm_compute. intuition discriminate.
  - vm_compute. intuition discriminate.
Defined.

(** C6, the claim as stated fails: the [Crystal] value of
    [open_paren_block] has no closing parenthesis, so its group is
    malformed and [chemistry] is empty, but [crystal] is the text before the
    opening parenthesis and not the whole value. *)
Lemma crystal_fields_counterexample :
  exists r, assemble ascii_only exact open_paren_block = Appended r /\
            field open_paren_block (py "Crystal") = py "Quartz (SiO2" /\
            ~ In 41 (field open_paren_block (py "Crystal")) /\
            c_chemistry r = [] /\
            c_crystal r = py "Quartz" /\
            c_crystal r <> field open_paren_block (py "Crystal").
Proof.
  eexists. split; [vm_compute; reflexivity|].
  split; [vm_compute; reflexivity|].
  split; [vm_compute; intuition discriminate|].
  split; [vm_compute; reflexivity|]. split; [vm_compute; reflexivity|].
  vm_compute. discriminate.
Qed.

(** C6, the amended claim at [fool_block]. *)
Lemma crystal_fields_witness :
  exists r, assemble ascii_only exact fool_block = Appended r /\
            c_crystal r = strip (py "Quartz ") /\
            c_chemistry r = strip (py "SiO2").
Proof.
  eexists. split; [vm_compute; reflexivity|].
  refine (proj1 (proj2 (proj2 (crystal_fields ascii_only exact fool_block _
                                 ltac:(vm_compute; reflexivity))))
            (py "Quartz ") (py "SiO2") [] _ _ _).
  - vm_compute. reflexivity.
  - vm_compute. intuition discriminate.
  - vm_compute. intuition.
Defined.

(** C7, the failing input: the [Ray] line of [empty_ray_block] has no
    value, and [field] returns the whole next line instead of the empty
    string. *)
Lemma field_empty_value_takes_next_line :
  field empty_ray_block (py "Ray") = py "- Crystal: Quartz".
Proof. vm_compute. reflexivity. Qed.

(** C8, the claim as stated fails: the loop body raises on [dot_block]
    because of the content of its [Technical] value, and the run ends in
    that error. *)
Lemma value_error_counterexample :
  field dot_block (py "Technical") = py "Solfeggio = ." /\
  assemble ascii_only exact dot_block = ValueError /\
  compile ascii_only exact dot_block = None /\
  ~ (forall b, assemble ascii_only exact b <> ValueError).
Proof.
  split; [vm_compute; reflexivity|]. split; [vm_compute; reflexivity|].
  split; [vm_compute; reflexivity|].
  intros H. apply (H dot_block). vm_compute. reflexivity.
Qed.

(** C8, the amended claim at [dot_block]: the error comes with a marker
    whose number is no float literal. *)
Lemma value_error_from_marker_only_witness :
  exists m, re_search (solfeggio_re ascii_only)
                      (field dot_block (py "Technical")) = Some m /\
            float_literal ascii_only (group m) = false.
Proof.
  destruct (proj1 (proj1 (value_error_from_marker_only ascii_only exact) dot_block)
              ltac:(vm_compute; reflexivity)) as (_ & _ & H).
  exact H.
Defined.

(** C9, the claim as stated fails: the third line of [tab_heading] starts
    with [##] and a tab, not with [##] and a space, yet the text is cut
    there, and the segment cut off is dropped from the blocks with its
    text. *)
Lemma splitter_cuts_counterexample :
  re_split splitter_re tab_heading
  = [py "## A" ++ NL :: py "x"; py "##" ++ 9 :: py "y"] /\
  startswith (py "##" ++ 9 :: py "y") (py "## ") = false /\
  blocks tab_heading = [py "## A" ++ NL :: py "x"] /\
  ~ (forall md,
        Forall (fun g => startswith g (py "## ") = true)
               (tl (re_split splitter_re md))).
Proof.
  split; [vm_compute; reflexivity|]. split; [vm_compute; reflexivity|].
  split; [vm_compute; reflexivity|].
  intros H. specialize (H tab_heading). vm_compute in H.
  inversion H as [|? ? E _]. discriminate E.
Qed.

(** C10 at [empty_ray_block]: the key [Ray], a space and a line break after
    its colon, then the line of the [Crystal] field. *)
Lemma field_reads_next_line_witness :
  field empty_ray_block (py "Ray") = strip (py "- Crystal: Quartz") /\
  strip (py "- Crystal: Quartz") <> [].
Proof.
  refine (field_reads_next_line (py "## X" ++ [NL]) [32] (py "Ray") [32] []
            (py "- Crystal: Quartz") [NL] _ _ _ _ _ _ _ _ _);
    try (vm_compute; reflexivity); try discriminate;
    try (repeat constructor).
  apply no_hyphen_no_earlier_key. vm_compute. intuition discriminate.
Defined.

(** X3 at the text [ single ] of the test suite. *)
Lemma parse_list_single_witness :
  parse_list (Some (py " single "))
  = if truthy (strip (py " single ")) then [strip (py " single ")] else [].
Proof.
  apply parse_list_single; vm_compute; intuition discriminate.
Defined.

(** X8 at the [Key] line of the block of the test suite. *)
Lemma field_sound_witness :
  exists pre sp gap line tail,
    key_block = pre ++ 45 :: sp ++ py "Key" ++ 58 :: gap ++ line ++ tail /\
    blank sp /\ blank gap /\ line <> [] /\
    Forall (fun y => not_nl y = true) line /\ stops not_nl tail /\
    field key_block (py "Key") = strip line.
Proof. apply field_sound. vm_compute. discriminate. Defined.

(** X9: the block of the test suite has no [Letter:]. *)
Lemma field_absent_witness : field key_block (py "Letter") = [].
Proof. apply field_absent. vm_compute. reflexivity. Defined.

(** X6 at the name [The Fool]. *)
Lemma id_idempotent_witness :
  lower ascii_only
        (re_sub (nonword_re ascii_only) (py "_")
                (lower ascii_only
                       (re_sub (nonword_re ascii_only) (py "_") (py "The Fool"))))
  = lower ascii_only (re_sub (nonword_re ascii_only) (py "_") (py "The Fool")).
Proof. exact (proj1 (id_idempotent ascii_only (py "The Fool") eq_refl)). Defined.

(** X7: [The Fool] and [THE fool] share the id [the_fool]. *)
Lemma id_ignores_case_witness :
  lower ascii_only (re_sub (nonword_re ascii_only) (py "_") (py "The Fool"))
  = lower ascii_only (re_sub (nonword_re ascii_only) (py "_") (py "THE fool")).
Proof. apply id_ignores_case. vm_compute. intuition reflexivity. Defined.

(** X11 at the first block of the test suite: one space behind the mark,
    the title [The Fool], then the field lines. *)
Lemma name_is_title_witness :
  exists r, assemble ascii_only exact fool_block = Appended r /\
            c_name r = strip (py "The Fool").
Proof.
  eexists. split; [vm_compute; reflexivity|].
  refine (proj1 (proj2 (name_is_title ascii_only exact
                          (py " ") (py "The Fool")
                          (skipn 11 fool_block) _ _ _ _ _ _) _ _)).
  - discriminate.
  - vm_compute. repeat constructor.
  - discriminate.
  - vm_compute. reflexivity.
  - vm_compute. repeat constructor.
  - vm_compute. reflexivity.
  - vm_compute. reflexivity.
Defined.

(** X13 at the first block of the test suite. *)
Lemma record_texts_from_block_witness :
  exists r, assemble ascii_only exact fool_block = Appended r /\
            Forall (from_block fool_block) (text_entries r).
Proof.
  eexists. split; [vm_compute; reflexivity|].
  apply (record_texts_from_block ascii_only exact fool_block).
  vm_compute. reflexivity.
Defined.

(** X14 at two blocks of the test suite, each a document of its own. *)
Lemma compile_concat_witness :
  blocks (fool_block ++ NL :: coins_block)
  = blocks fool_block ++ blocks coins_block /\
  compile ascii_only exact (fool_block ++ NL :: coins_block) =
  match compile ascii_only exact fool_block,
        compile ascii_only exact coins_block with
  | Some c1, Some c2 => Some (c1 ++ c2)
  | _, _ => None
  end.
Proof.
  apply (compile_concat ascii_only exact fool_block coins_block);
    vm_compute; reflexivity.
Defined.

(** X16 at the first block of the two-block document. *)
Lemma record_has_name_witness :
  exists r, assemble ascii_only exact fool_block = Appended r /\
            c_name r <> [].
Proof.
  eexists. split; [vm_compute; reflexivity|].
  refine (proj1 (record_has_name ascii_only exact two_blocks fool_block _ _ _)).
  - vm_compute. left. reflexivity.
  - vm_compute. reflexivity.
Defined.

(** X17 at the first block of the test suite, with the ASCII digits
    only. *)
Lemma freq_not_negative_witness :
  exists r, assemble ascii_only exact fool_block = Appended r /\
            exists q : Q, (0 <= q)%Q /\ c_freq r = exact q.
Proof.
  eexists. split; [vm_compute; reflexivity|].
  apply (freq_not_negative ascii_only exact fool_block).
  - intros c d H. discriminate H.
  - vm_compute. reflexivity.
Defined.

(** X4 at the tokens [A] and [B C]. *)
Lemma parse_list_round_trip_witness :
  parse_list (Some (join_sep 44 [py "A"; py "B C"])) = [py "A"; py "B C"] /\
  parse_list (Some (join_sep 59 [py "A"; py "B C"])) = [py "A"; py "B C"].
Proof.
  apply parse_list_round_trip.
  repeat constructor; try discriminate; vm_compute; intuition discriminate.
Defined.

(** X10 at the [Key] line of the block of the test suite: three spaces
    after the colon, the value, three more spaces. *)
Lemma field_reads_value_witness :
  field key_block (py "Key") = strip (py "Value with spaces   ") /\
  strip (py "Value with spaces   ") <> [] /\
  substring (strip (py "Value with spaces   "))
            (py "   " ++ py "Value with spaces   ").
Proof.
  refine (field_reads_value (NL :: py "## Example" ++ [NL]) [32] (py "Key")
            (py "   ") (py "Value with spaces   ")
            (NL :: py "- Other: Something" ++ [NL]) _ _ _ _ _ _ _ _ _);
    try (vm_compute; reflexivity); try discriminate;
    try (repeat constructor).
  apply no_hyphen_no_earlier_key. vm_compute. intuition discriminate.
Defined.
